(** * Game-Name-To-Steam-App-ID: the matching pipeline of [index.js]

    A shallow embedding of the three functions of [index.js] that carry the
    matching logic ([findSteamAppIdsFullMatch], [findSteamAppIdsBestMatch]
    and the part of [main] that sequences them and writes the result files)
    and of [importGameNames], which reads the names, followed by the
    properties the specification states about them and by further
    properties read off the code.

    Conventions of the embedding:
    - JavaScript strings are [string] (sequences of 8-bit characters);
      [toLowerCase] is a function of the runtime, left open.
    - Arrays are [list]s; reading past the end is [nth_error ... = None]
      (JavaScript's [undefined]); reading a property of [undefined] throws,
      which the embedding renders as [None] in the [option] monad.
    - Objects used as name-keyed dictionaries are lists of own properties
      kept in the order in which [Object.keys], [Object.entries] and
      [JSON.stringify] enumerate them: array-index keys first, in ascending
      numeric order, then the other string keys in order of creation.
      Assignment [o[k] = v] defines an own property, except under the key
      [__proto__], where it runs the accessor that the object inherits and
      leaves the own properties as they are.
    - Similarity ratings are exact rationals ([Q]); the source holds the same
      quotients as IEEE doubles. *)

From Stdlib Require Import List String Ascii Bool Arith NArith ZArith QArith.
From Stdlib Require Import Lia Permutation Sorted DecimalString.
Import ListNotations.

Local Open Scope nat_scope.
Local Open Scope list_scope.

(* ================================================================== *)
(** * Strings *)

(** Lower-casing on the ASCII range: the letters [A]..[Z] (codes 65..90)
    are moved to [a]..[z], every other character is kept. *)
Definition lower_ascii (c : ascii) : ascii :=
  let n := nat_of_ascii c in
  if (65 <=? n) && (n <=? 90) then ascii_of_nat (n + 32) else c.

Fixpoint ascii_toLowerCase (s : string) : string :=
  match s with
  | EmptyString => EmptyString
  | String c s' => String (lower_ascii c) (ascii_toLowerCase s')
  end.

(** What the program takes from the runtime: [String.prototype.toLowerCase].
    The passes and their properties are stated for every such function;
    the sample runs are computed with the lower-casing of the ASCII
    letters. *)
Class Runtime : Type := { toLowerCase : string -> string }.

#[global] Instance ascii_runtime : Runtime :=
  {| toLowerCase := ascii_toLowerCase |}.

(* ================================================================== *)
(** * Objects used as dictionaries *)

Module JsObject.

(** The own properties of an object, in enumeration order. *)
Definition jsobj (V : Type) : Type := list (string * V).

Definition empty {V : Type} : jsobj V := [].

(** [Object.keys], [Object.entries]. *)
Definition keys {V : Type} (o : jsobj V) : list string := map fst o.
Definition entries {V : Type} (o : jsobj V) : list (string * V) := o.

(** Decimal digits of a property key. *)
Definition digit_of (c : ascii) : option N :=
  let n := N_of_ascii c in
  if ((48 <=? n) && (n <=? 57))%N then Some (n - 48)%N else None.

Fixpoint parse_digits (s : string) (acc : N) : option N :=
  match s with
  | EmptyString => Some acc
  | String c s' =>
      match digit_of c with
      | Some d => parse_digits s' (10 * acc + d)%N
      | None => None
      end
  end.

(** A key is an array index when it is the canonical decimal numeral of an
    integer between 0 and 2^32 - 2: no sign, no leading zero, no other
    character. *)
Definition array_index (k : string) : option N :=
  match k with
  | EmptyString => None
  | String c rest =>
      if Ascii.eqb c "0"%char
      then (match rest with EmptyString => Some 0%N | _ => None end)
      else match parse_digits k 0 with
           | Some n => if (n <=? 4294967294)%N then Some n else None
           | None => None
           end
  end.

(** Own-property lookup, [o[k]] for a key the object owns. *)
Fixpoint get {V : Type} (k : string) (o : jsobj V) : option V :=
  match o with
  | [] => None
  | (k', v) :: o' => if String.eqb k k' then Some v else get k o'
  end.

Definition has {V : Type} (k : string) (o : jsobj V) : bool :=
  match get k o with Some _ => true | None => false end.

(** Assignment to an existing own property: the value changes, the
    position in the enumeration does not. *)
Fixpoint update {V : Type} (k : string) (v : V) (o : jsobj V) : jsobj V :=
  match o with
  | [] => []
  | (k', v') :: o' =>
      if String.eqb k k' then (k', v) :: o' else (k', v') :: update k v o'
  end.

(** Creation of an array-index property [n]: it is enumerated after the
    array-index properties below it and before everything else. *)
Fixpoint insert_index {V : Type} (n : N) (k : string) (v : V)
         (o : jsobj V) : jsobj V :=
  match o with
  | [] => [(k, v)]
  | (k', v') :: o' =>
      match array_index k' with
      | Some n' =>
          if (n' <? n)%N then (k', v') :: insert_index n k v o'
          else (k, v) :: o
      | None => (k, v) :: o
      end
  end.

(** Creation of a property: an array index is put in numeric position, any
    other key is enumerated last. *)
Definition create {V : Type} (k : string) (v : V) (o : jsobj V) : jsobj V :=
  match array_index k with
  | Some n => insert_index n k v o
  | None => o ++ [(k, v)]
  end.

(** The own data property [k] of the object is given the value [v]: the
    property is updated if the object owns it and created otherwise. *)
Definition define {V : Type} (k : string) (v : V) (o : jsobj V) : jsobj V :=
  if has k o then update k v o else create k v o.

(** The keys other than [__proto__]. *)
Definition ordinary (k : string) : bool := negb (String.eqb k "__proto__").

(** [o[k] = v], on an object made by an object literal.  Such an object
    inherits the accessor [__proto__]: an assignment to this key runs the
    setter, which replaces the prototype of the object when the value is an
    object and does nothing otherwise, and in both cases the object gets no
    own property.  Under every other key the own property is defined; the
    properties inherited are writable and do not stand in the way. *)
Definition set {V : Type} (k : string) (v : V) (o : jsobj V) : jsobj V :=
  if ordinary k then define k v o else o.

(** [Object.fromEntries]: the entries are defined one after the other as
    own properties of a new object. *)
Definition fromEntries {V : Type} (l : list (string * V)) : jsobj V :=
  fold_left (fun o kv => define (fst kv) (snd kv) o) l empty.

(** [Array.prototype.sort] with a comparator: a stable sort, where
    [gt a b] holds when the comparator returns a positive number on
    [(a, b)], that is when [b] has to come first.  An element is put in
    front of the already sorted elements that followed it in the input,
    behind those that have to come first. *)
Fixpoint sort_insert {A : Type} (gt : A -> A -> bool) (x : A)
         (l : list A) : list A :=
  match l with
  | [] => [x]
  | y :: l' => if gt x y then y :: sort_insert gt x l' else x :: l
  end.

Definition sort {A : Type} (gt : A -> A -> bool) (l : list A) : list A :=
  fold_right (sort_insert gt) [] l.

End JsObject.

Import JsObject.

(* ================================================================== *)
(** * The string-similarity package *)

Module StringSimilarity.

Definition bigram : Type := (ascii * ascii)%type.

Definition bigram_eqb (x y : bigram) : bool :=
  Ascii.eqb (fst x) (fst y) && Ascii.eqb (snd x) (snd y).

(** The two-character substrings of a string, in order, repetitions
    kept. *)
Fixpoint bigrams (s : string) : list bigram :=
  match s with
  | String a t =>
      match t with
      | String b _ => (a, b) :: bigrams t
      | EmptyString => []
      end
  | EmptyString => []
  end.

Fixpoint mem (x : bigram) (l : list bigram) : bool :=
  match l with
  | [] => false
  | y :: l' => bigram_eqb x y || mem x l'
  end.

(** One occurrence of [x] taken out of [l]. *)
Fixpoint take_out (x : bigram) (l : list bigram) : list bigram :=
  match l with
  | [] => []
  | y :: l' => if bigram_eqb x y then l' else y :: take_out x l'
  end.

(** Size of the intersection with multiplicity: every bigram of [second]
    is matched with one occurrence of it in [first] not matched before. *)
Fixpoint intersectionSize (first second : list bigram) : nat :=
  match second with
  | [] => 0
  | b :: second' =>
      if mem b first
      then S (intersectionSize (take_out b first) second')
      else intersectionSize first second'
  end.

(** Modelled from the spec: the bigram-overlap score of two strings, the
    metric of the string-similarity package, which [index.js] imports and
    which is not among the sources.  The score is
    [2 * |bigrams A ∩ bigrams B| / (|bigrams A| + |bigrams B|)] with the
    intersection taken with multiplicity; identical strings score 1 and,
    otherwise, a string shorter than two characters scores 0.  The quotient
    is kept in lowest terms, so that equal scores are equal values. *)
Definition bigramScore (first second : string) : Q :=
  if String.eqb first second then 1%Q
  else if (String.length first <? 2) || (String.length second <? 2) then 0%Q
  else
    let b1 := bigrams first in
    let b2 := bigrams second in
    Qred (Qmake (Z.of_nat (2 * intersectionSize b1 b2))
                (Pos.of_nat (List.length b1 + List.length b2))).

(** White space, the class [\s] of regular expressions on the ASCII range:
    tab, line feed, vertical tab, form feed, carriage return, space. *)
Definition is_space (c : ascii) : bool :=
  let n := nat_of_ascii c in
  ((9 <=? n) && (n <=? 13)) || (n =? 32).

Fixpoint removeWhitespace (s : string) : string :=
  match s with
  | EmptyString => EmptyString
  | String c s' =>
      if is_space c then removeWhitespace s'
      else String c (removeWhitespace s')
  end.

(** Modelled from the spec: [compareTwoStrings] of the string-similarity
    package, not among the sources: the bigram-overlap score above.  The
    package takes the white space out of both strings first; the sample
    scores of the README are the scores of the strings without their
    blanks (26/45 and 2/3, where the strings with their blanks give 28/50
    and 20/29). *)
Definition compareTwoStrings (first second : string) : Q :=
  bigramScore (removeWhitespace first) (removeWhitespace second).

Record Rating : Type := { target : string; rating : Q }.

Record BestMatch : Type :=
  { ratings : list Rating; bestMatch : Rating; bestMatchIndex : nat }.

(** The scan for the maximum: the candidate at position [i] replaces the
    best one so far only when its rating is strictly greater, so that
    among equal ratings the first one stays. *)
Fixpoint scan_best (rs : list Rating) (i : nat) (best : Rating)
         (bestIndex : nat) : Rating * nat :=
  match rs with
  | [] => (best, bestIndex)
  | r :: rs' =>
      if negb (Qle_bool (rating r) (rating best))
      then scan_best rs' (S i) r i
      else scan_best rs' (S i) best bestIndex
  end.

(** Modelled from the spec: [findBestMatch] of the string-similarity
    package, not among the sources.  Every target is rated against the
    main string and the entry with the maximum score is selected, ties
    broken by first occurrence; [bestMatch] and [bestMatchIndex] are the
    fields [index.js] reads.  Over no target at all there is no entry to
    select: the call does not return a result ([None]). *)
Definition findBestMatch (mainString : string) (targetStrings : list string)
  : option BestMatch :=
  let rs :=
    map (fun t => {| target := t; rating := compareTwoStrings mainString t |})
        targetStrings in
  match rs with
  | [] => None
  | r0 :: rs' =>
      let '(b, i) := scan_best rs' 1 r0 0 in
      Some {| ratings := rs; bestMatch := b; bestMatchIndex := i |}
  end.

End StringSimilarity.

Import StringSimilarity.

(* ================================================================== *)
(** * The catalog, the configuration and the two matching passes *)

(** An entry of the catalog, as the Steam API delivers it. *)
Record SteamApp : Type := { appid : Z; name : string }.

(** The two options of [CONFIG] the pipeline reads; an option that the
    configuration file leaves out is [None] ([undefined]). *)
Record Config : Type :=
  { onlyFullMatches : option bool;
    partialMatchThreshold : option Q }.

(** ** Exact matches: [findSteamAppIdsFullMatch] *)

(** The variables the function can reach: its two parameters and its three
    local results. *)
Record FullMatchEnv : Type :=
  { fm_gameNames : list string;
    fm_steamApps : list SteamApp;
    fm_single : jsobj Z;
    fm_multiple : jsobj (list Z);
    fm_remaining : list string }.

(** [Object.values(steamApps).filter((app) => (app.name === game))]. *)
Definition fullMatchesOf (game : string) (steamApps : list SteamApp)
  : list SteamApp :=
  filter (fun app => String.eqb (name app) game) steamApps.

(** The body of the [for ... of] loop, for the element [game]. *)
Definition fullMatch_body (game : string) (e : FullMatchEnv) : FullMatchEnv :=
  let fullMatches := fullMatchesOf game (fm_steamApps e) in
  if List.length fullMatches =? 1 then
    match fullMatches with
    | m :: _ =>
        {| fm_gameNames := fm_gameNames e;
           fm_steamApps := fm_steamApps e;
           fm_single := set game (appid m) (fm_single e);
           fm_multiple := fm_multiple e;
           fm_remaining := fm_remaining e |}
    | [] => e (* not reached: the length is 1 *)
    end
  else if 1 <? List.length fullMatches then
    {| fm_gameNames := fm_gameNames e;
       fm_steamApps := fm_steamApps e;
       fm_single := fm_single e;
       fm_multiple := set game (map appid fullMatches) (fm_multiple e);
       fm_remaining := fm_remaining e |}
  else
    {| fm_gameNames := fm_gameNames e;
       fm_steamApps := fm_steamApps e;
       fm_single := fm_single e;
       fm_multiple := fm_multiple e;
       fm_remaining := fm_remaining e ++ [game] |}.

(** The loop itself: the array iterator reads element [i] of the array as
    it is at that moment and stops at its end.  [fuel] bounds the number of
    iterations. *)
Fixpoint fullMatch_loop (fuel i : nat) (e : FullMatchEnv) : FullMatchEnv :=
  match fuel with
  | O => e
  | S fuel' =>
      match nth_error (fm_gameNames e) i with
      | Some game => fullMatch_loop fuel' (S i) (fullMatch_body game e)
      | None => e
      end
  end.

Definition fullMatch_init (gameNames : list string) (steamApps : list SteamApp)
  : FullMatchEnv :=
  {| fm_gameNames := gameNames;
     fm_steamApps := steamApps;
     fm_single := empty;
     fm_multiple := empty;
     fm_remaining := [] |}.

(** The environment when the loop has ended. *)
Definition fullMatch_run (gameNames : list string) (steamApps : list SteamApp)
  : FullMatchEnv :=
  fullMatch_loop (List.length gameNames) 0 (fullMatch_init gameNames steamApps).

Record FullMatchResult : Type :=
  { steamIDsSingleFullMatch : jsobj Z;
    steamIDsMultipleFullMatches : jsobj (list Z);
    remainingGameNames : list string }.

Definition findSteamAppIdsFullMatch (gameNames : list string)
           (steamApps : list SteamApp) : FullMatchResult :=
  let e := fullMatch_run gameNames steamApps in
  {| steamIDsSingleFullMatch := fm_single e;
     steamIDsMultipleFullMatches := fm_multiple e;
     remainingGameNames := fm_remaining e |}.

(** ** Similarity matches: [findSteamAppIdsBestMatch] *)

Record BestMatchEntry : Type :=
  { appId : Z; similarity : Q; steamName : string }.

Record BestMatchEnv : Type :=
  { bm_gameNames : list string;
    bm_steamApps : list SteamApp;
    steamAppsLowercase : list string;
    gameNamesLowercase : list string;
    bm_best : jsobj BestMatchEntry;
    bm_noMatch : list string }.

(** The threshold in force: 0 unless the configured one is truthy. *)
Definition threshold_of (CONFIG : Config) : Q :=
  match partialMatchThreshold CONFIG with
  | Some t => if Qeq_bool t 0 then 0%Q else t
  | None => 0%Q
  end.

(** The body of the [for] loop once [q = gameNamesLowercase[i]] and
    [game = gameNames[i]] have been read.  [None] is a thrown exception:
    [findBestMatch] has no result, or [steamApps[bestMatchIndex]] is
    [undefined] and its [appid] is read. *)
Definition bestMatch_at (threshold : Q) (q game : string) (e : BestMatchEnv)
  : option BestMatchEnv :=
  match findBestMatch q (steamAppsLowercase e) with
  | None => None
  | Some best =>
      if Qle_bool threshold (rating (bestMatch best)) then
        match nth_error (bm_steamApps e) (bestMatchIndex best) with
        | None => None
        | Some app =>
            Some {| bm_gameNames := bm_gameNames e;
                    bm_steamApps := bm_steamApps e;
                    steamAppsLowercase := steamAppsLowercase e;
                    gameNamesLowercase := gameNamesLowercase e;
                    bm_best :=
                      set game
                          {| appId := appid app;
                             similarity := rating (bestMatch best);
                             steamName := name app |}
                          (bm_best e);
                    bm_noMatch := bm_noMatch e |}
        end
      else
        Some {| bm_gameNames := bm_gameNames e;
                bm_steamApps := bm_steamApps e;
                steamAppsLowercase := steamAppsLowercase e;
                gameNamesLowercase := gameNamesLowercase e;
                bm_best := bm_best e;
                bm_noMatch := bm_noMatch e ++ [game] |}
  end.

(** The body of the [for] loop at index [i].  The two arrays have the same
    length, so that both reads succeed for every [i] the loop reaches. *)
Definition bestMatch_body (threshold : Q) (i : nat) (e : BestMatchEnv)
  : option BestMatchEnv :=
  match nth_error (gameNamesLowercase e) i, nth_error (bm_gameNames e) i with
  | Some q, Some game => bestMatch_at threshold q game e
  | _, _ => None
  end.

(** [for (let i = 0; i < gameNamesLowercase.length; i++)]. *)
Fixpoint bestMatch_loop (threshold : Q) (fuel i : nat) (e : BestMatchEnv)
  : option BestMatchEnv :=
  match fuel with
  | O => Some e
  | S fuel' =>
      if i <? List.length (gameNamesLowercase e) then
        match bestMatch_body threshold i e with
        | Some e' => bestMatch_loop threshold fuel' (S i) e'
        | None => None
        end
      else Some e
  end.

Definition bestMatch_init {RT : Runtime} (gameNames : list string) (steamApps : list SteamApp)
  : BestMatchEnv :=
  {| bm_gameNames := gameNames;
     bm_steamApps := steamApps;
     steamAppsLowercase := map (fun app => toLowerCase (name app)) steamApps;
     gameNamesLowercase := map (fun game => toLowerCase game) gameNames;
     bm_best := empty;
     bm_noMatch := [] |}.

Definition bestMatch_run {RT : Runtime} (CONFIG : Config) (gameNames : list string)
           (steamApps : list SteamApp) : option BestMatchEnv :=
  bestMatch_loop (threshold_of CONFIG) (List.length gameNames) 0
                 (bestMatch_init gameNames steamApps).

(** The comparator [([, a], [, b]) => b.similarity - a.similarity] returns
    a positive number exactly when [a.similarity < b.similarity]. *)
Definition by_similarity (x y : string * BestMatchEntry) : bool :=
  negb (Qle_bool (similarity (snd y)) (similarity (snd x))).

Record BestMatchResult : Type :=
  { steamIDsBestMatch : jsobj BestMatchEntry;
    steamIDsNoMatch : list string }.

Definition findSteamAppIdsBestMatch {RT : Runtime} (CONFIG : Config) (gameNames : list string)
           (steamApps : list SteamApp) : option BestMatchResult :=
  match bestMatch_run CONFIG gameNames steamApps with
  | None => None
  | Some e =>
      Some {| steamIDsBestMatch :=
                fromEntries (sort by_similarity (entries (bm_best e)));
              steamIDsNoMatch := bm_noMatch e |}
  end.

(** ** The pipeline: [main] *)

(** What is handed to [JSON.stringify] and written to a file. *)
Inductive Payload : Type :=
| SingleFullMatches (o : jsobj Z)
| MultipleFullMatches (o : jsobj (list Z))
| BestMatches (o : jsobj BestMatchEntry)
| NoMatches (l : list string).

(** The effects of a run of [main] from line 69 on, with the catalog
    fetched and the names imported (lines 61 and 65 are the matter of
    [main_from_file] below), and with every [fs.writeFileSync] taken to
    succeed: the files handed to [fs.writeFileSync], in order; the argument
    of the call of [findSteamAppIdsBestMatch], if the call was made;
    whether the two passes let [main] reach its end or the similarity pass
    left it by an exception. *)
Record Run : Type :=
  { written : list (string * Payload);
    bestMatchCall : option (list string);
    completed : bool }.

Definition truthy (b : option bool) : bool :=
  match b with Some true => true | _ => false end.

Definition main {RT : Runtime} (CONFIG : Config) (steamApps : list SteamApp)
           (gameNames : list string) : Run :=
  let r := findSteamAppIdsFullMatch gameNames steamApps in
  let gameNames := remainingGameNames r in
  let w1 :=
    if 0 <? List.length (keys (steamIDsSingleFullMatch r))
    then [("./output/steamAppIds_fullMatches.json"%string,
           SingleFullMatches (steamIDsSingleFullMatch r))]
    else [] in
  let w2 :=
    if 0 <? List.length (keys (steamIDsMultipleFullMatches r))
    then [("./output/steamAppIds_multipleFullMatches.json"%string,
           MultipleFullMatches (steamIDsMultipleFullMatches r))]
    else [] in
  if negb (truthy (onlyFullMatches CONFIG)) then
    match findSteamAppIdsBestMatch CONFIG gameNames steamApps with
    | None =>
        {| written := w1 ++ w2;
           bestMatchCall := Some gameNames;
           completed := false |}
    | Some b =>
        let w3 :=
          [("./output/steamAppIds_bestMatch.json"%string,
            BestMatches (steamIDsBestMatch b))] in
        let w4 :=
          if 0 <? List.length (steamIDsNoMatch b)
          then [("./output/steamAppIds_noMatch.json"%string,
                 NoMatches (steamIDsNoMatch b))]
          else [] in
        {| written := w1 ++ w2 ++ w3 ++ w4;
           bestMatchCall := Some gameNames;
           completed := true |}
    end
  else
    {| written := w1 ++ w2; bestMatchCall := None; completed := true |}.

(* ================================================================== *)
(** * Sample runs *)

Definition sample_catalog : list SteamApp :=
  [ {| appid := 1; name := "Portal" |}; {| appid := 2; name := "Portal 2" |} ].

Definition sample_config : Config :=
  {| onlyFullMatches := None; partialMatchThreshold := Some (1 # 2) |}.

(* ================================================================== *)
(** * Auxiliary notions used in the statements *)

(** The environment of the exact-match loop after the names [l] have been
    processed one after the other. *)
Definition fullMatch_after (gameNames : list string)
           (steamApps : list SteamApp) (l : list string) : FullMatchEnv :=
  fold_left (fun e game => fullMatch_body game e) l
            (fullMatch_init gameNames steamApps).

(** Number of catalog entries whose name is exactly [game]. *)
Definition exactCount (game : string) (steamApps : list SteamApp) : nat :=
  List.length (fullMatchesOf game steamApps).

(** One more name processed by the similarity loop; [None] once an
    iteration has thrown. *)
Definition bestMatch_next {RT : Runtime} (t : Q) (oe : option BestMatchEnv) (game : string)
  : option BestMatchEnv :=
  match oe with
  | Some e => bestMatch_at t (toLowerCase game) game e
  | None => None
  end.

(** The environment of the similarity loop after the names [l] have been
    processed one after the other. *)
Definition bestMatch_after {RT : Runtime} (threshold : Q) (gameNames : list string)
           (steamApps : list SteamApp) (l : list string) : option BestMatchEnv :=
  fold_left (bestMatch_next threshold) l
            (Some (bestMatch_init gameNames steamApps)).

(** The lower-cased catalog names, as the similarity pass builds them. *)
Definition lowercaseNames {RT : Runtime} (steamApps : list SteamApp) : list string :=
  map (fun app => toLowerCase (name app)) steamApps.

(** The rating of the best match of a name, and the entry recorded for it
    when the rating is accepted. *)
Definition bestRating {RT : Runtime} (steamApps : list SteamApp) (game : string) : Q :=
  match findBestMatch (toLowerCase game) (lowercaseNames steamApps) with
  | Some best => rating (bestMatch best)
  | None => 0%Q
  end.

Definition bestEntry {RT : Runtime} (steamApps : list SteamApp) (game : string)
  : option BestMatchEntry :=
  match findBestMatch (toLowerCase game) (lowercaseNames steamApps) with
  | Some best =>
      match nth_error steamApps (bestMatchIndex best) with
      | Some app =>
          Some {| appId := appid app;
                  similarity := rating (bestMatch best);
                  steamName := name app |}
      | None => None
      end
  | None => None
  end.

(** The names of the three groups of the exact-match pass, one after the
    other. *)
Definition groupNames (r : FullMatchResult) : list string :=
  keys (steamIDsSingleFullMatch r) ++
  keys (steamIDsMultipleFullMatches r) ++
  remainingGameNames r.

(** A name with at least one exact match. *)
Definition matched (steamApps : list SteamApp) (game : string) : bool :=
  negb (exactCount game steamApps =? 0).

(** A similarity-match mapping enumerated by descending similarity. *)
Definition descending (o : jsobj BestMatchEntry) : Prop :=
  StronglySorted
    (fun x y => (similarity (snd y) <= similarity (snd x))%Q) o.

(** Two entries with the same similarity. *)
Definition same_score (s : Q) (x : string * BestMatchEntry) : bool :=
  Qeq_bool (similarity (snd x)) s.

(** The names of a list in the order of their first occurrences. *)
Definition firstOccurrences (l : list string) : list string :=
  rev (nodup string_dec (rev l)).

(** The names the similarity pass accepts under the threshold [t]. *)
Definition accepted {RT : Runtime} (t : Q) (steamApps : list SteamApp) (game : string) : bool :=
  Qle_bool t (bestRating steamApps game).

(** A run of the similarity pass with a name that is an array index. *)
Definition numeric_catalog : list SteamApp :=
  [ {| appid := 400; name := "Portal" |}; {| appid := 2; name := "1943" |} ].

Definition no_threshold : Config :=
  {| onlyFullMatches := None; partialMatchThreshold := None |}.

(** A catalog with two names that differ in letter case only. *)
Definition case_catalog : list SteamApp :=
  [ {| appid := 1; name := "Portal" |}; {| appid := 2; name := "portal" |} ].

(** A catalog with one entry named [__proto__]. *)
Definition proto_single_catalog : list SteamApp :=
  [ {| appid := 1; name := "Portal" |}; {| appid := 9; name := "__proto__" |} ].

(** A catalog with two entries named [__proto__]. *)
Definition proto_catalog : list SteamApp :=
  [ {| appid := 7; name := "Dune" |};
    {| appid := 9; name := "__proto__" |};
    {| appid := 5; name := "Dune" |};
    {| appid := 10; name := "__proto__" |} ].

(* ================================================================== *)
(** * Reading the names: [importGameNames] *)

(** [CONFIG.inputFile]. *)
Record InputFile : Type :=
  { fileName : string; fileType : string; delimiter : string }.

(** [String.prototype.split] with the empty separator: the characters of
    the string, one by one; no piece at all for the empty string. *)
Fixpoint split_chars (s : string) : list string :=
  match s with
  | EmptyString => []
  | String c s' => String c EmptyString :: split_chars s'
  end.

(** [String.prototype.split] with a non-empty separator [sep]: the string
    is read from left to right; where [sep] starts, the piece read so far
    is closed and the characters of this occurrence of [sep] are passed
    over ([skip] of them are still to pass); the piece open at the end of
    the string is the last one. *)
Fixpoint split_scan (sep : string) (skip : nat) (s piece : string)
  : list string :=
  match s with
  | EmptyString => [piece]
  | String c s' =>
      match skip with
      | S k => split_scan sep k s' piece
      | O =>
          if String.prefix sep s
          then piece :: split_scan sep (String.length sep - 1) s' EmptyString
          else split_scan sep 0 s' (piece ++ String c EmptyString)
      end
  end.

(** [s.split(sep)]. *)
Definition split (sep s : string) : list string :=
  match sep with
  | EmptyString => split_chars s
  | String _ _ => split_scan sep 0 s EmptyString
  end.

(** How a function ends: it returns, or it ends the process by
    [process.exit(code)]. *)
Inductive Outcome (A : Type) : Type :=
| Returned (a : A)
| Exited (code : Z).

Arguments Returned {A} a.
Arguments Exited {A} code.

(** The path [`${fileName}.${fileType}`]. *)
Definition inputPath (inputFile : InputFile) : string :=
  (fileName inputFile ++ "." ++ fileType inputFile)%string.

(** [importGameNames], over a file system that gives the text of the file
    at a path, or [None] where [fs.readFileSync] throws. *)
Definition importGameNames (inputFile : InputFile)
           (readFileSync : string -> option string) : Outcome (list string) :=
  if negb (existsb (String.eqb (fileType inputFile)) ["csv"; "txt"]%string)
  then Exited 1
  else
    match readFileSync (inputPath inputFile) with
    | None => Exited 1
    | Some gameNames => Returned (split (delimiter inputFile) gameNames)
    end.

(** [main] from the catalog fetched and the input file: the names are
    imported, then matched. *)
Definition main_from_file {RT : Runtime} (CONFIG : Config) (inputFile : InputFile)
           (readFileSync : string -> option string)
           (steamApps : list SteamApp) : Outcome Run :=
  match importGameNames inputFile readFileSync with
  | Exited code => Exited code
  | Returned gameNames => Returned (main CONFIG steamApps gameNames)
  end.

(** A number in a template literal. *)
Definition decimal (n : nat) : string :=
  NilZero.string_of_uint (Nat.to_uint n).

(** The end of the line that [findSteamAppIdsFullMatch] logs: the games
    with more than one match are mentioned when their number exceeds 1. *)
Definition ambiguous_note (multiple : nat) : string :=
  if 1 <? multiple
  then (", of which " ++ decimal multiple ++
        " games had more than one match.")%string
  else "."%string.

(** The line that [findSteamAppIdsFullMatch] logs before it returns. *)
Definition fullMatch_log (r : FullMatchResult) : string :=
  let single := List.length (keys (steamIDsSingleFullMatch r)) in
  let multiple := List.length (keys (steamIDsMultipleFullMatches r)) in
  ("Found full matches for " ++ decimal (single + multiple) ++ " games" ++
   ambiguous_note multiple ++ String "010"%char EmptyString)%string.

(* ================================================================== *)
(** * Further notions used in the statements *)

(** Names that are array indices, and their numeric value. *)
Definition is_index (k : string) : bool :=
  match array_index k with Some _ => true | None => false end.

Definition index_of (k : string) : N :=
  match array_index k with Some n => n | None => 0%N end.

(** The entries of an object under array-index keys, and the others. *)
Definition index_entries {V : Type} (o : jsobj V) : jsobj V :=
  filter (fun kv => is_index (fst kv)) o.

Definition plain_entries {V : Type} (o : jsobj V) : jsobj V :=
  filter (fun kv => negb (is_index (fst kv))) o.

(** The enumeration order of an object: the array-index keys first, in
    ascending numeric order, then the other keys. *)
Definition index_first {V : Type} (o : jsobj V) : Prop :=
  o = index_entries o ++ plain_entries o /\
  StronglySorted
    (fun x y => (index_of (fst x) <= index_of (fst y))%N) (index_entries o).

(** The same, for an object given in two parts: entries under array-index
    keys in ascending order, and entries under other keys. *)
Definition layout {V : Type} (idx pl : jsobj V) : Prop :=
  Forall (fun kv => is_index (fst kv) = true) idx /\
  Forall (fun kv => is_index (fst kv) = false) pl /\
  StronglySorted
    (fun x y : string * V => (index_of (fst x) <= index_of (fst y))%N) idx.

(** The names recorded by the similarity loop under a key that is not an
    array index: the accepted names of this kind, other than [__proto__]. *)
Definition recorded_plain {RT : Runtime} (t : Q) (steamApps : list SteamApp)
           (game : string) : bool :=
  accepted t steamApps game && negb (is_index game) && ordinary game.

(** The number of distinct names of a list, other than [__proto__], with
    at least one exact match, and with more than one. *)
Definition distinctMatched (steamApps : list SteamApp)
           (gameNames : list string) : nat :=
  List.length
    (nodup string_dec
       (filter (fun g => matched steamApps g && ordinary g) gameNames)).

Definition distinctAmbiguous (steamApps : list SteamApp)
           (gameNames : list string) : nat :=
  List.length
    (nodup string_dec
       (filter (fun g => (1 <? exactCount g steamApps) && ordinary g)
               gameNames)).

(** The names without an exact match. *)
Definition unmatched (steamApps : list SteamApp) (game : string) : bool :=
  exactCount game steamApps =? 0.

(** The occurrences of a character in a string. *)
Definition occurrences (c : ascii) (s : string) : nat :=
  count_occ ascii_dec (list_ascii_of_string s) c.

(* ================================================================== *)
(** * Facts about objects *)

Section ObjectFacts.

Context {V : Type}.
Implicit Types (o : jsobj V) (k : string) (v : V).

Lemma get_None_keys k o : get k o = None <-> ~ In k (keys o).
Proof.
  induction o as [|[k' v'] o IH]; simpl.
  - tauto.
  - destruct (String.eqb_spec k k') as [->|Hne].
    + split; [discriminate | intros H; exfalso; apply H; now left].
    + rewrite IH. split; intros H.
      * intros [E|I]; [now apply Hne | now apply H].
      * intros I; apply H; now right.
Qed.

Lemma has_true_keys k o : has k o = true <-> In k (keys o).
Proof.
  unfold has. destruct (get k o) eqn:E.
  - split; [intros _ | reflexivity].
    destruct (in_dec string_dec k (keys o)) as [I|N]; [exact I|].
    apply get_None_keys in N. congruence.
  - split; [discriminate|]. intros I. apply get_None_keys in E. contradiction.
Qed.

Lemma has_false_keys k o : has k o = false <-> ~ In k (keys o).
Proof.
  rewrite <- has_true_keys. destruct (has k o); split; congruence.
Qed.

Lemma keys_update k v o : keys (update k v o) = keys o.
Proof.
  induction o as [|[k' v'] o IH]; simpl; [reflexivity|].
  destruct (String.eqb k k'); simpl; [reflexivity | now rewrite IH].
Qed.

Lemma get_update_eq k v o : In k (keys o) -> get k (update k v o) = Some v.
Proof.
  induction o as [|[k' v'] o IH]; simpl; [tauto|].
  intros H. destruct (String.eqb_spec k k') as [->|Hne]; simpl.
  - now rewrite String.eqb_refl.
  - destruct (String.eqb_spec k k'); [contradiction|].
    apply IH. destruct H as [E|I]; [symmetry in E; contradiction | exact I].
Qed.

Lemma get_update_ne k k' v o : k' <> k -> get k' (update k v o) = get k' o.
Proof.
  intros Hne. induction o as [|[k0 v0] o IH]; simpl; [reflexivity|].
  destruct (String.eqb_spec k k0) as [->|Hk]; simpl.
  - destruct (String.eqb_spec k' k0); [contradiction | reflexivity].
  - destruct (String.eqb k' k0); [reflexivity | exact IH].
Qed.

Lemma insert_index_perm n k v o : Permutation (insert_index n k v o) ((k, v) :: o).
Proof.
  induction o as [|[k' v'] o IH]; simpl; [reflexivity|].
  destruct (array_index k') as [n'|]; [|reflexivity].
  destruct (n' <? n)%N; [|reflexivity].
  rewrite IH. apply perm_swap.
Qed.

Lemma create_perm k v o : Permutation (create k v o) ((k, v) :: o).
Proof.
  unfold create. destruct (array_index k).
  - apply insert_index_perm.
  - symmetry. apply Permutation_cons_append.
Qed.

Lemma get_insert_index_eq n k v o :
  ~ In k (keys o) -> get k (insert_index n k v o) = Some v.
Proof.
  induction o as [|[k' v'] o IH]; simpl; intros H.
  - now rewrite String.eqb_refl.
  - assert (Hne : k <> k') by (intros ->; apply H; now left).
    destruct (array_index k') as [n'|]; simpl.
    + destruct (n' <? n)%N; simpl.
      * destruct (String.eqb_spec k k'); [contradiction|].
        apply IH. intros I; apply H; now right.
      * now rewrite String.eqb_refl.
    + now rewrite String.eqb_refl.
Qed.

Lemma get_insert_index_ne n k k' v o :
  k' <> k -> get k' (insert_index n k v o) = get k' o.
Proof.
  intros Hne. induction o as [|[k0 v0] o IH]; simpl.
  - destruct (String.eqb_spec k' k); [contradiction | reflexivity].
  - destruct (array_index k0) as [n0|]; simpl.
    + destruct (n0 <? n)%N; simpl.
      * destruct (String.eqb k' k0); [reflexivity | exact IH].
      * destruct (String.eqb_spec k' k); [contradiction | reflexivity].
    + destruct (String.eqb_spec k' k); [contradiction | reflexivity].
Qed.

Lemma get_app_last k k' v o :
  get k' (o ++ [(k, v)]) =
  match get k' o with Some x => Some x | None => if String.eqb k' k then Some v else None end.
Proof.
  induction o as [|[k0 v0] o IH]; simpl; [reflexivity|].
  destruct (String.eqb k' k0); [reflexivity | exact IH].
Qed.

Lemma get_create_eq k v o : ~ In k (keys o) -> get k (create k v o) = Some v.
Proof.
  intros H. unfold create. destruct (array_index k).
  - now apply get_insert_index_eq.
  - rewrite get_app_last. apply get_None_keys in H. rewrite H.
    now rewrite String.eqb_refl.
Qed.

Lemma get_create_ne k k' v o : k' <> k -> get k' (create k v o) = get k' o.
Proof.
  intros Hne. unfold create. destruct (array_index k).
  - now apply get_insert_index_ne.
  - rewrite get_app_last. destruct (get k' o); [reflexivity|].
    destruct (String.eqb_spec k' k); [contradiction | reflexivity].
Qed.

(** Reading back what was defined. *)
Lemma get_define_eq k v o : get k (define k v o) = Some v.
Proof.
  unfold define. destruct (has k o) eqn:E.
  - apply get_update_eq. now apply has_true_keys.
  - apply get_create_eq. now apply has_false_keys.
Qed.

Lemma get_define_ne k k' v o : k' <> k -> get k' (define k v o) = get k' o.
Proof.
  intros Hne. unfold define. destruct (has k o).
  - now apply get_update_ne.
  - now apply get_create_ne.
Qed.

(** Defining a property the object owns leaves the keys as they are;
    defining a new one adds this one key. *)
Lemma keys_define_old k v o : In k (keys o) -> keys (define k v o) = keys o.
Proof.
  intros H. unfold define. apply has_true_keys in H. rewrite H.
  apply keys_update.
Qed.

Lemma keys_define_new k v o :
  ~ In k (keys o) -> Permutation (keys (define k v o)) (k :: keys o).
Proof.
  intros H. unfold define. apply has_false_keys in H. rewrite H.
  unfold keys. change (k :: map fst o) with (map fst ((k, v) :: o)).
  apply Permutation_map, create_perm.
Qed.

Lemma NoDup_keys_define k v o :
  NoDup (keys o) -> NoDup (keys (define k v o)).
Proof.
  intros ND. destruct (in_dec string_dec k (keys o)) as [I|N].
  - now rewrite keys_define_old.
  - apply (Permutation_NoDup (Permutation_sym (keys_define_new k v o N))).
    now constructor.
Qed.

(** Assignment: the key [__proto__] apart, it defines the property. *)
Lemma ordinary_true k : ordinary k = true <-> k <> "__proto__"%string.
Proof.
  unfold ordinary. destruct (String.eqb_spec k "__proto__"); simpl;
    split; congruence.
Qed.

Lemma ordinary_false k : ordinary k = false <-> k = "__proto__"%string.
Proof.
  unfold ordinary. destruct (String.eqb_spec k "__proto__"); simpl;
    split; congruence.
Qed.

Lemma set_ordinary k v o : ordinary k = true -> set k v o = define k v o.
Proof. intros H. unfold set. now rewrite H. Qed.

Lemma set_proto k v o : ordinary k = false -> set k v o = o.
Proof. intros H. unfold set. now rewrite H. Qed.

Lemma get_set_eq k v o : ordinary k = true -> get k (set k v o) = Some v.
Proof. intros H. rewrite set_ordinary by exact H. apply get_define_eq. Qed.

Lemma get_set_ne k k' v o : k' <> k -> get k' (set k v o) = get k' o.
Proof.
  intros Hne. unfold set. destruct (ordinary k); [|reflexivity].
  now apply get_define_ne.
Qed.

Lemma NoDup_keys_set k v o : NoDup (keys o) -> NoDup (keys (set k v o)).
Proof.
  intros ND. unfold set. destruct (ordinary k); [|exact ND].
  now apply NoDup_keys_define.
Qed.

(** No assignment makes [__proto__] an own key. *)
Lemma set_keeps_proto_out k k' v o :
  ordinary k' = false -> ~ In k' (keys o) -> ~ In k' (keys (set k v o)).
Proof.
  intros Hk' N. unfold set. destruct (ordinary k) eqn:Hk; [|exact N].
  destruct (in_dec string_dec k (keys o)) as [I|N'].
  - now rewrite keys_define_old.
  - intros I. apply (Permutation_in _ (keys_define_new k v o N')) in I.
    destruct I as [E|I]; [|now apply N]. subst k'. congruence.
Qed.

Lemma get_set_proto k k' v o :
  ordinary k' = false -> get k' o = None -> get k' (set k v o) = None.
Proof.
  intros Hk' H. apply get_None_keys. apply set_keeps_proto_out; [exact Hk'|].
  now apply get_None_keys.
Qed.

End ObjectFacts.

(* ================================================================== *)
(** * The exact-match pass *)

Lemma nth_error_skipn {A : Type} (l : list A) (i : nat) (x : A) :
  nth_error l i = Some x -> skipn i l = x :: skipn (S i) l.
Proof.
  revert i. induction l as [|y l IH]; intros [|i] H; simpl in *;
    try discriminate.
  - now inversion H.
  - now apply IH.
Qed.

Lemma count_occ_filter (p : string -> bool) (l : list string) (g : string) :
  count_occ string_dec (filter p l) g =
  if p g then count_occ string_dec l g else 0.
Proof.
  induction l as [|x l IH]; simpl.
  - now destruct (p g).
  - destruct (p x) eqn:Px; simpl; destruct (string_dec x g) as [->|Hne].
    + rewrite IH, Px. reflexivity.
    + exact IH.
    + rewrite IH, Px. reflexivity.
    + exact IH.
Qed.

(** The parameters are not assigned to by the loop body. *)
Lemma fullMatch_body_frame game e :
  fm_gameNames (fullMatch_body game e) = fm_gameNames e /\
  fm_steamApps (fullMatch_body game e) = fm_steamApps e.
Proof.
  unfold fullMatch_body.
  destruct (fullMatchesOf game (fm_steamApps e)) as [|m [|m' ms]];
    simpl; split; reflexivity.
Qed.

Lemma fullMatch_loop_frame fuel : forall i e,
  fm_gameNames (fullMatch_loop fuel i e) = fm_gameNames e /\
  fm_steamApps (fullMatch_loop fuel i e) = fm_steamApps e.
Proof.
  induction fuel as [|fuel IH]; intros i e; simpl; [now split|].
  destruct (nth_error (fm_gameNames e) i) as [game|]; [|now split].
  destruct (IH (S i) (fullMatch_body game e)) as [H1 H2].
  destruct (fullMatch_body_frame game e) as [B1 B2].
  split; congruence.
Qed.

(** With enough fuel the loop is the left fold of its body over the names
    from position [i] on. *)
Lemma fullMatch_loop_fold fuel : forall i e,
  List.length (fm_gameNames e) <= fuel + i ->
  fullMatch_loop fuel i e =
  fold_left (fun e game => fullMatch_body game e) (skipn i (fm_gameNames e)) e.
Proof.
  induction fuel as [|fuel IH]; intros i e Hlen; simpl.
  - rewrite skipn_all2 by lia. reflexivity.
  - destruct (nth_error (fm_gameNames e) i) as [game|] eqn:E.
    + rewrite (nth_error_skipn _ _ _ E). simpl.
      destruct (fullMatch_body_frame game e) as [B1 _].
      rewrite IH by (rewrite B1; lia). now rewrite B1.
    + apply nth_error_None in E. rewrite skipn_all2 by lia. reflexivity.
Qed.

Lemma fullMatch_run_after gameNames steamApps :
  fullMatch_run gameNames steamApps =
  fullMatch_after gameNames steamApps gameNames.
Proof.
  unfold fullMatch_run, fullMatch_after.
  rewrite fullMatch_loop_fold by (simpl; lia). reflexivity.
Qed.

(** The loop has ended after [length gameNames] iterations: more fuel does
    not change its result. *)
Lemma fullMatch_loop_enough gameNames steamApps extra :
  fullMatch_loop (List.length gameNames + extra) 0
                 (fullMatch_init gameNames steamApps) =
  fullMatch_run gameNames steamApps.
Proof.
  unfold fullMatch_run.
  rewrite !fullMatch_loop_fold by (simpl; lia). reflexivity.
Qed.

Lemma fullMatch_after_snoc gameNames steamApps l game :
  fullMatch_after gameNames steamApps (l ++ [game]) =
  fullMatch_body game (fullMatch_after gameNames steamApps l).
Proof.
  unfold fullMatch_after. now rewrite fold_left_app.
Qed.

Lemma fullMatch_after_apps gameNames steamApps l :
  fm_steamApps (fullMatch_after gameNames steamApps l) = steamApps.
Proof.
  induction l as [|game l IH] using rev_ind; [reflexivity|].
  rewrite fullMatch_after_snoc.
  destruct (fullMatch_body_frame game (fullMatch_after gameNames steamApps l))
    as [_ ->]. exact IH.
Qed.

(** What one iteration does to each of the three results. *)
Lemma body_single game e :
  fm_single (fullMatch_body game e) =
  match fullMatchesOf game (fm_steamApps e) with
  | [m] => set game (appid m) (fm_single e)
  | _ => fm_single e
  end.
Proof.
  unfold fullMatch_body.
  destruct (fullMatchesOf game (fm_steamApps e)) as [|m [|m' ms]]; reflexivity.
Qed.

Lemma body_multiple game e :
  fm_multiple (fullMatch_body game e) =
  match fullMatchesOf game (fm_steamApps e) with
  | _ :: _ :: _ =>
      set game (map appid (fullMatchesOf game (fm_steamApps e))) (fm_multiple e)
  | _ => fm_multiple e
  end.
Proof.
  unfold fullMatch_body.
  destruct (fullMatchesOf game (fm_steamApps e)) as [|m [|m' ms]]; reflexivity.
Qed.

Lemma body_remaining game e :
  fm_remaining (fullMatch_body game e) =
  match fullMatchesOf game (fm_steamApps e) with
  | [] => fm_remaining e ++ [game]
  | _ => fm_remaining e
  end.
Proof.
  unfold fullMatch_body.
  destruct (fullMatchesOf game (fm_steamApps e)) as [|m [|m' ms]]; reflexivity.
Qed.

(** The unmatched names are the names without an exact match, every
    occurrence kept, in input order. *)
Lemma after_remaining gameNames steamApps l :
  fm_remaining (fullMatch_after gameNames steamApps l) =
  filter (fun g => exactCount g steamApps =? 0) l.
Proof.
  induction l as [|game l IH] using rev_ind; [reflexivity|].
  rewrite fullMatch_after_snoc, body_remaining, fullMatch_after_apps.
  rewrite filter_app, IH. unfold exactCount. simpl.
  destruct (fullMatchesOf game steamApps) as [|m ms]; simpl.
  - reflexivity.
  - now rewrite app_nil_r.
Qed.

Lemma after_single_NoDup gameNames steamApps l :
  NoDup (keys (fm_single (fullMatch_after gameNames steamApps l))).
Proof.
  induction l as [|game l IH] using rev_ind; [constructor|].
  rewrite fullMatch_after_snoc, body_single.
  destruct (fullMatchesOf game _) as [|m [|m' ms]]; try exact IH.
  now apply NoDup_keys_set.
Qed.

Lemma after_multiple_NoDup gameNames steamApps l :
  NoDup (keys (fm_multiple (fullMatch_after gameNames steamApps l))).
Proof.
  induction l as [|game l IH] using rev_ind; [constructor|].
  rewrite fullMatch_after_snoc, body_multiple.
  destruct (fullMatchesOf game _) as [|m [|m' ms]]; try exact IH.
  now apply NoDup_keys_set.
Qed.

(** No grouping owns the key [__proto__]. *)
Lemma after_single_proto gameNames steamApps l g :
  ordinary g = false ->
  get g (fm_single (fullMatch_after gameNames steamApps l)) = None.
Proof.
  intros O. induction l as [|game l IH] using rev_ind; [reflexivity|].
  rewrite fullMatch_after_snoc, body_single.
  destruct (fullMatchesOf game _) as [|m [|m' ms]]; try exact IH.
  now apply get_set_proto.
Qed.

Lemma after_multiple_proto gameNames steamApps l g :
  ordinary g = false ->
  get g (fm_multiple (fullMatch_after gameNames steamApps l)) = None.
Proof.
  intros O. induction l as [|game l IH] using rev_ind; [reflexivity|].
  rewrite fullMatch_after_snoc, body_multiple.
  destruct (fullMatchesOf game _) as [|m [|m' ms]]; try exact IH.
  now apply get_set_proto.
Qed.

(** The value recorded under a name in the unique-match grouping. *)
Lemma after_single_get gameNames steamApps l g :
  get g (fm_single (fullMatch_after gameNames steamApps l)) =
  match fullMatchesOf g steamApps with
  | [m] => if in_dec string_dec g l
           then if ordinary g then Some (appid m) else None
           else None
  | _ => None
  end.
Proof.
  destruct (ordinary g) eqn:O.
  2:{ rewrite after_single_proto by exact O.
      destruct (fullMatchesOf g steamApps) as [|m [|m' ms]]; try reflexivity.
      now destruct (in_dec string_dec g l). }
  induction l as [|game l IH] using rev_ind.
  - simpl. now destruct (fullMatchesOf g steamApps) as [|m [|m' ms]].
  - rewrite fullMatch_after_snoc, body_single, fullMatch_after_apps.
    destruct (string_dec g game) as [->|Hne].
    + destruct (fullMatchesOf game steamApps) as [|m [|m' ms]]; try exact IH.
      rewrite get_set_eq by exact O.
      destruct (in_dec string_dec game (l ++ [game])) as [_|N]; [reflexivity|].
      exfalso; apply N, in_or_app; right; now left.
    + assert (E : get g (fm_single (fullMatch_after gameNames steamApps l)) =
                  get g (match fullMatchesOf game steamApps with
                         | [m] => set game (appid m)
                                    (fm_single (fullMatch_after gameNames steamApps l))
                         | _ => fm_single (fullMatch_after gameNames steamApps l)
                         end)).
      { destruct (fullMatchesOf game steamApps) as [|m [|m' ms]];
          try reflexivity. now rewrite get_set_ne. }
      rewrite <- E, IH.
      destruct (fullMatchesOf g steamApps) as [|m [|m' ms]]; try reflexivity.
      destruct (in_dec string_dec g l) as [I|N];
        destruct (in_dec string_dec g (l ++ [game])) as [I'|N'];
        try reflexivity.
      * exfalso; apply N', in_or_app; now left.
      * exfalso. apply in_app_or in I'. destruct I' as [I'|[E'|[]]];
          [now apply N | now apply Hne].
Qed.

(** The value recorded under a name in the ambiguous-match grouping. *)
Lemma after_multiple_get gameNames steamApps l g :
  get g (fm_multiple (fullMatch_after gameNames steamApps l)) =
  match fullMatchesOf g steamApps with
  | _ :: _ :: _ =>
      if in_dec string_dec g l
      then if ordinary g
           then Some (map appid (fullMatchesOf g steamApps)) else None
      else None
  | _ => None
  end.
Proof.
  destruct (ordinary g) eqn:O.
  2:{ rewrite after_multiple_proto by exact O.
      destruct (fullMatchesOf g steamApps) as [|m [|m' ms]]; try reflexivity.
      now destruct (in_dec string_dec g l). }
  induction l as [|game l IH] using rev_ind.
  - simpl. now destruct (fullMatchesOf g steamApps) as [|m [|m' ms]].
  - rewrite fullMatch_after_snoc, body_multiple, fullMatch_after_apps.
    destruct (string_dec g game) as [->|Hne].
    + destruct (fullMatchesOf game steamApps) as [|m [|m' ms]] eqn:E;
        try exact IH.
      rewrite get_set_eq by exact O.
      destruct (in_dec string_dec game (l ++ [game])) as [_|N]; [reflexivity|].
      exfalso; apply N, in_or_app; right; now left.
    + assert (E : get g (fm_multiple (fullMatch_after gameNames steamApps l)) =
                  get g (match fullMatchesOf game steamApps with
                         | _ :: _ :: _ =>
                             set game (map appid (fullMatchesOf game steamApps))
                               (fm_multiple (fullMatch_after gameNames steamApps l))
                         | _ => fm_multiple (fullMatch_after gameNames steamApps l)
                         end)).
      { destruct (fullMatchesOf game steamApps) as [|m [|m' ms]];
          try reflexivity. now rewrite get_set_ne. }
      rewrite <- E, IH.
      destruct (fullMatchesOf g steamApps) as [|m [|m' ms]]; try reflexivity.
      destruct (in_dec string_dec g l) as [I|N];
        destruct (in_dec string_dec g (l ++ [game])) as [I'|N'];
        try reflexivity.
      * exfalso; apply N', in_or_app; now left.
      * exfalso. apply in_app_or in I'. destruct I' as [I'|[E'|[]]];
          [now apply N | now apply Hne].
Qed.

(* ================================================================== *)
(** * The similarity score *)

Lemma bigram_eqb_spec x y : reflect (x = y) (bigram_eqb x y).
Proof.
  destruct x as [a b], y as [c d]. unfold bigram_eqb; simpl.
  destruct (Ascii.eqb_spec a c) as [->|Hac]; simpl.
  - destruct (Ascii.eqb_spec b d) as [->|Hbd]; constructor; congruence.
  - constructor; congruence.
Qed.

Lemma intersectionSize_nil_l second : intersectionSize [] second = 0.
Proof. induction second; simpl; auto. Qed.

(** Unfolding of the intersection on the side of the first list. *)
Lemma intersectionSize_cons_l x first second :
  intersectionSize (x :: first) second =
  if mem x second
  then S (intersectionSize first (take_out x second))
  else intersectionSize first second.
Proof.
  revert first. induction second as [|b second IH]; intros first; simpl.
  - reflexivity.
  - destruct (bigram_eqb_spec b x) as [->|Hbx]; simpl.
    + destruct (bigram_eqb_spec x x) as [_|N]; [reflexivity | congruence].
    + destruct (bigram_eqb_spec x b) as [E|_]; [symmetry in E; contradiction|].
      simpl. destruct (mem b first) eqn:Mb.
      * rewrite IH. destruct (mem x second); simpl; rewrite ?Mb; reflexivity.
      * rewrite IH. destruct (mem x second); simpl; rewrite ?Mb; reflexivity.
Qed.

Lemma intersectionSize_sym first : forall second,
  intersectionSize first second = intersectionSize second first.
Proof.
  induction first as [|x first IH]; intros second.
  - now rewrite intersectionSize_nil_l.
  - rewrite intersectionSize_cons_l. simpl.
    destruct (mem x second); now rewrite IH.
Qed.

Lemma intersectionSize_le_second first second :
  intersectionSize first second <= List.length second.
Proof.
  revert first. induction second as [|b second IH]; intros first; simpl.
  - lia.
  - destruct (mem b first).
    + specialize (IH (take_out b first)). lia.
    + specialize (IH first). lia.
Qed.

Lemma intersectionSize_le_first first second :
  intersectionSize first second <= List.length first.
Proof.
  rewrite intersectionSize_sym. apply intersectionSize_le_second.
Qed.

Lemma Zpos_of_nat_ge n : (Z.of_nat n <= Z.pos (Pos.of_nat n))%Z.
Proof.
  destruct n as [|n]; [simpl; lia|].
  rewrite <- (Nat2Pos.id (S n)) at 1 by discriminate.
  rewrite positive_nat_Z. lia.
Qed.

Lemma String_eqb_sym (a b : string) : String.eqb a b = String.eqb b a.
Proof.
  destruct (String.eqb_spec a b) as [->|Hne].
  - now rewrite String.eqb_refl.
  - destruct (String.eqb_spec b a); congruence.
Qed.

Lemma bigramScore_refl a : bigramScore a a = 1%Q.
Proof. unfold bigramScore. now rewrite String.eqb_refl. Qed.

Lemma bigramScore_sym a b :
  bigramScore a b = bigramScore b a.
Proof.
  unfold bigramScore.
  rewrite (String_eqb_sym a b), (orb_comm (String.length a <? 2)).
  rewrite (intersectionSize_sym (bigrams a)), (Nat.add_comm (List.length (bigrams a))).
  reflexivity.
Qed.

Lemma bigramScore_bounds a b :
  (0 <= bigramScore a b /\ bigramScore a b <= 1)%Q.
Proof.
  unfold bigramScore.
  destruct (String.eqb a b).
  - split; unfold Qle; simpl; lia.
  - destruct ((String.length a <? 2) || (String.length b <? 2)).
    + split; unfold Qle; simpl; lia.
    + pose proof (intersectionSize_le_first (bigrams a) (bigrams b)) as H1.
      pose proof (intersectionSize_le_second (bigrams a) (bigrams b)) as H2.
      pose proof (Zpos_of_nat_ge
                    (List.length (bigrams a) + List.length (bigrams b))) as H3.
      rewrite Qred_correct.
      split; unfold Qle; cbn [Qnum Qden]; lia.
Qed.

(** Scores are in lowest terms: a score equal to 1 is the value 1. *)
Lemma bigramScore_one a b :
  (bigramScore a b == 1)%Q -> bigramScore a b = 1%Q.
Proof.
  unfold bigramScore.
  destruct (String.eqb a b); [reflexivity|].
  destruct ((String.length a <? 2) || (String.length b <? 2)).
  - intros H. unfold Qeq in H. simpl in H. discriminate.
  - intros H. rewrite Qred_correct in H.
    apply Qred_complete in H. exact H.
Qed.

Lemma compareTwoStrings_refl a : compareTwoStrings a a = 1%Q.
Proof. apply bigramScore_refl. Qed.

Lemma compareTwoStrings_sym a b :
  compareTwoStrings a b = compareTwoStrings b a.
Proof. apply bigramScore_sym. Qed.

Lemma compareTwoStrings_bounds a b :
  (0 <= compareTwoStrings a b /\ compareTwoStrings a b <= 1)%Q.
Proof. apply bigramScore_bounds. Qed.

Lemma compareTwoStrings_one a b :
  (compareTwoStrings a b == 1)%Q -> compareTwoStrings a b = 1%Q.
Proof. apply bigramScore_one. Qed.

(** The two sample scores of the README. *)
Example readme_fallout_tactics :
  compareTwoStrings (toLowerCase "Fallout Tactics: Brotherhood of Steel")
                    (toLowerCase "Fallout Tactics") = (26 # 45)%Q.
Proof. vm_compute. reflexivity. Qed.

Example readme_death_stranding :
  compareTwoStrings (toLowerCase "DEATH STRANDING")
                    (toLowerCase "Witch Strandings") = (2 # 3)%Q.
Proof. vm_compute. reflexivity. Qed.

(* ================================================================== *)
(** * Selection of the best match *)

Lemma scan_best_spec rs : forall pre best bi b j,
  nth_error pre bi = Some best ->
  (forall r, In r pre -> (rating r <= rating best)%Q) ->
  (forall k r, k < bi -> nth_error pre k = Some r ->
               (rating r < rating best)%Q) ->
  scan_best rs (List.length pre) best bi = (b, j) ->
  nth_error (pre ++ rs) j = Some b /\
  (forall r, In r (pre ++ rs) -> (rating r <= rating b)%Q) /\
  (forall k r, k < j -> nth_error (pre ++ rs) k = Some r ->
               (rating r < rating b)%Q).
Proof.
  induction rs as [|r rs IH]; intros pre best bi b j Hnth Hmax Hfirst Hscan.
  - simpl in Hscan. inversion Hscan; subst. rewrite app_nil_r. auto.
  - simpl in Hscan.
    assert (Hbi : bi < List.length pre)
      by (apply nth_error_Some; congruence).
    replace (pre ++ r :: rs) with ((pre ++ [r]) ++ rs)
      by (now rewrite <- app_assoc).
    replace (S (List.length pre)) with (List.length (pre ++ [r])) in Hscan
      by (rewrite length_app; simpl; lia).
    destruct (Qle_bool (rating r) (rating best)) eqn:Hle; simpl in Hscan.
    + apply Qle_bool_iff in Hle.
      apply (IH (pre ++ [r]) best bi b j); try assumption.
      * rewrite nth_error_app1 by assumption. exact Hnth.
      * intros x Hx. apply in_app_or in Hx.
        destruct Hx as [Hx|[<-|[]]]; [now apply Hmax | exact Hle].
      * intros k x Hk Hx. rewrite nth_error_app1 in Hx by lia.
        now apply (Hfirst k).
    + assert (Hlt : (rating best < rating r)%Q).
      { apply Qnot_le_lt. intros H. apply Qle_bool_iff in H. congruence. }
      apply (IH (pre ++ [r]) r (List.length pre) b j); try assumption.
      * rewrite nth_error_app2 by lia. now rewrite Nat.sub_diag.
      * intros x Hx. apply in_app_or in Hx.
        destruct Hx as [Hx|[<-|[]]].
        -- apply Qlt_le_weak. eapply Qle_lt_trans; [now apply Hmax | exact Hlt].
        -- apply Qle_refl.
      * intros k x Hk Hx. rewrite nth_error_app1 in Hx by lia.
        eapply Qle_lt_trans; [|exact Hlt].
        apply Hmax. eapply nth_error_In; eauto.
Qed.

(** [findBestMatch] has a result exactly over a non-empty list of targets,
    and then it selects the first target with the maximum score. *)
Lemma findBestMatch_spec q targets :
  targets <> [] ->
  exists best t,
    findBestMatch q targets = Some best /\
    nth_error targets (bestMatchIndex best) = Some t /\
    rating (bestMatch best) = compareTwoStrings q t /\
    (forall t', In t' targets ->
                (compareTwoStrings q t' <= rating (bestMatch best))%Q) /\
    (forall k t', k < bestMatchIndex best -> nth_error targets k = Some t' ->
                  (compareTwoStrings q t' < rating (bestMatch best))%Q).
Proof.
  destruct targets as [|t0 ts]; [congruence|]. intros _.
  unfold findBestMatch.
  set (mk := fun t => {| target := t; rating := compareTwoStrings q t |}).
  change (map mk (t0 :: ts)) with (mk t0 :: map mk ts).
  destruct (scan_best (map mk ts) 1 (mk t0) 0) as [b j] eqn:Hscan.
  assert (H0 : nth_error [mk t0] 0 = Some (mk t0)) by reflexivity.
  assert (H1 : forall r, In r [mk t0] -> (rating r <= rating (mk t0))%Q)
    by (intros r [<-|[]]; apply Qle_refl).
  assert (H2 : forall k r, k < 0 -> nth_error [mk t0] k = Some r ->
                           (rating r < rating (mk t0))%Q)
    by (intros k r Hk; lia).
  destruct (scan_best_spec (map mk ts) [mk t0] (mk t0) 0 b j H0 H1 H2 Hscan)
    as (Hnth & Hmax & Hfirst).
  change ([mk t0] ++ map mk ts) with (map mk (t0 :: ts)) in *.
  rewrite nth_error_map in Hnth.
  destruct (nth_error (t0 :: ts) j) as [t|] eqn:Et; [|discriminate].
  simpl in Hnth. inversion Hnth; subst b.
  exists {| ratings := mk t0 :: map mk ts; bestMatch := mk t;
            bestMatchIndex := j |}, t.
  cbn [bestMatch bestMatchIndex rating mk].
  split; [|split; [|split; [|split]]]; try reflexivity.
  - now rewrite Hscan.
  - exact Et.
  - intros t' Ht'. apply (Hmax (mk t')). now apply in_map.
  - intros k t' Hk Hk'. apply (Hfirst k (mk t') Hk).
    rewrite nth_error_map, Hk'. reflexivity.
Qed.

(* ================================================================== *)
(** * The similarity pass *)

Lemma bestMatch_at_frame t q game e e' :
  bestMatch_at t q game e = Some e' ->
  bm_gameNames e' = bm_gameNames e /\
  bm_steamApps e' = bm_steamApps e /\
  steamAppsLowercase e' = steamAppsLowercase e /\
  gameNamesLowercase e' = gameNamesLowercase e.
Proof.
  unfold bestMatch_at.
  destruct (findBestMatch q (steamAppsLowercase e)) as [best|]; [|discriminate].
  destruct (Qle_bool t (rating (bestMatch best))).
  - destruct (nth_error (bm_steamApps e) (bestMatchIndex best));
      [|discriminate].
    intros H; inversion H; subst; simpl; auto.
  - intros H; inversion H; subst; simpl; auto.
Qed.

Lemma bestMatch_body_frame t i e e' :
  bestMatch_body t i e = Some e' ->
  bm_gameNames e' = bm_gameNames e /\
  bm_steamApps e' = bm_steamApps e /\
  steamAppsLowercase e' = steamAppsLowercase e /\
  gameNamesLowercase e' = gameNamesLowercase e.
Proof.
  unfold bestMatch_body.
  destruct (nth_error (gameNamesLowercase e) i); [|discriminate].
  destruct (nth_error (bm_gameNames e) i); [|discriminate].
  apply bestMatch_at_frame.
Qed.

Lemma bestMatch_loop_frame t fuel : forall i e e',
  bestMatch_loop t fuel i e = Some e' ->
  bm_gameNames e' = bm_gameNames e /\
  bm_steamApps e' = bm_steamApps e /\
  steamAppsLowercase e' = steamAppsLowercase e /\
  gameNamesLowercase e' = gameNamesLowercase e.
Proof.
  induction fuel as [|fuel IH]; intros i e e' H; simpl in H.
  - inversion H; subst; auto.
  - destruct (i <? List.length (gameNamesLowercase e)).
    + destruct (bestMatch_body t i e) as [e1|] eqn:B; [|discriminate].
      apply bestMatch_body_frame in B. apply IH in H.
      destruct B as (B1 & B2 & B3 & B4), H as (H1 & H2 & H3 & H4).
      repeat split; congruence.
    + inversion H; subst; auto.
Qed.

Lemma fold_bestMatch_next_None {RT : Runtime} t l : fold_left (bestMatch_next t) l None = None.
Proof. induction l; simpl; auto. Qed.

Lemma bestMatch_loop_fold {RT : Runtime} t fuel : forall i e,
  gameNamesLowercase e = map (fun game => toLowerCase game) (bm_gameNames e) ->
  List.length (bm_gameNames e) <= fuel + i ->
  bestMatch_loop t fuel i e =
  fold_left (bestMatch_next t) (skipn i (bm_gameNames e)) (Some e).
Proof.
  induction fuel as [|fuel IH]; intros i e Hlow Hlen; simpl.
  - rewrite skipn_all2 by lia. reflexivity.
  - rewrite Hlow, length_map.
    destruct (Nat.ltb_spec i (List.length (bm_gameNames e))) as [Hi|Hi].
    + destruct (nth_error (bm_gameNames e) i) as [game|] eqn:E;
        [|apply nth_error_None in E; lia].
      rewrite (nth_error_skipn _ _ _ E). simpl.
      unfold bestMatch_body. rewrite Hlow, nth_error_map, E. simpl.
      destruct (bestMatch_at t (toLowerCase game) game e) as [e1|] eqn:B.
      * destruct (bestMatch_at_frame _ _ _ _ _ B) as (B1 & _ & _ & B4).
        rewrite IH.
        -- now rewrite B1.
        -- rewrite B4, B1. exact Hlow.
        -- rewrite B1. lia.
      * now rewrite fold_bestMatch_next_None.
    + rewrite skipn_all2 by lia. reflexivity.
Qed.

Lemma bestMatch_after_unfold {RT : Runtime} t gameNames steamApps l :
  bestMatch_after t gameNames steamApps l =
  fold_left (bestMatch_next t) l (Some (bestMatch_init gameNames steamApps)).
Proof. reflexivity. Qed.

Lemma bestMatch_run_after {RT : Runtime} CONFIG gameNames steamApps :
  bestMatch_run CONFIG gameNames steamApps =
  bestMatch_after (threshold_of CONFIG) gameNames steamApps gameNames.
Proof.
  unfold bestMatch_run. rewrite bestMatch_loop_fold; simpl; auto. lia.
Qed.

(** The loop has ended after [length gameNames] iterations. *)
Lemma bestMatch_loop_enough {RT : Runtime} CONFIG gameNames steamApps extra :
  bestMatch_loop (threshold_of CONFIG) (List.length gameNames + extra) 0
                 (bestMatch_init gameNames steamApps) =
  bestMatch_run CONFIG gameNames steamApps.
Proof.
  unfold bestMatch_run. rewrite !bestMatch_loop_fold; simpl; auto; lia.
Qed.

Lemma bestMatch_after_snoc {RT : Runtime} t gameNames steamApps l game :
  bestMatch_after t gameNames steamApps (l ++ [game]) =
  bestMatch_next t (bestMatch_after t gameNames steamApps l) game.
Proof.
  rewrite !bestMatch_after_unfold. now rewrite fold_left_app.
Qed.

Lemma bestMatch_after_frame {RT : Runtime} t gameNames steamApps l : forall e,
  bestMatch_after t gameNames steamApps l = Some e ->
  bm_steamApps e = steamApps /\
  steamAppsLowercase e = lowercaseNames steamApps.
Proof.
  induction l as [|game l IH] using rev_ind; intros e H.
  - inversion H; subst; simpl; auto.
  - rewrite bestMatch_after_snoc in H.
    destruct (bestMatch_after t gameNames steamApps l) as [e0|];
      [|discriminate].
    simpl in H. apply bestMatch_at_frame in H.
    destruct (IH e0 eq_refl) as [I1 I2], H as (_ & H2 & H3 & _).
    split; congruence.
Qed.

(** Over a non-empty catalog the best match of every name exists and its
    index is inside the catalog. *)
Lemma best_in_catalog {RT : Runtime} steamApps q :
  steamApps <> [] ->
  exists best app,
    findBestMatch q (lowercaseNames steamApps) = Some best /\
    nth_error steamApps (bestMatchIndex best) = Some app /\
    rating (bestMatch best) = compareTwoStrings q (toLowerCase (name app)) /\
    (forall a, In a steamApps ->
       (compareTwoStrings q (toLowerCase (name a)) <= rating (bestMatch best))%Q) /\
    (forall k a, k < bestMatchIndex best -> nth_error steamApps k = Some a ->
       (compareTwoStrings q (toLowerCase (name a)) < rating (bestMatch best))%Q).
Proof.
  intros Hne.
  assert (Hl : lowercaseNames steamApps <> []).
  { destruct steamApps; [congruence | discriminate]. }
  destruct (findBestMatch_spec q _ Hl) as (best & t & Hf & Hn & Hr & Hmax & Hfirst).
  unfold lowercaseNames in Hn. rewrite nth_error_map in Hn.
  destruct (nth_error steamApps (bestMatchIndex best)) as [app|] eqn:Ea;
    [|discriminate].
  simpl in Hn. inversion Hn; subst t.
  exists best, app. repeat apply conj; auto.
  - intros a Ha. apply Hmax. unfold lowercaseNames.
    apply (in_map (fun app => toLowerCase (name app))). exact Ha.
  - intros k a Hk Ha. apply (Hfirst k); [exact Hk|].
    unfold lowercaseNames. rewrite nth_error_map, Ha. reflexivity.
Qed.

Lemma bestMatch_after_total {RT : Runtime} t gameNames steamApps l :
  steamApps <> [] ->
  exists e, bestMatch_after t gameNames steamApps l = Some e.
Proof.
  intros Hne. induction l as [|game l IH] using rev_ind.
  - eexists; reflexivity.
  - destruct IH as [e He]. rewrite bestMatch_after_snoc, He. simpl.
    destruct (bestMatch_after_frame _ _ _ _ _ He) as [F1 F2].
    destruct (best_in_catalog steamApps (toLowerCase game) Hne)
      as (best & app & Hf & Hn & _).
    unfold bestMatch_at. rewrite F2, Hf, F1, Hn.
    destruct (Qle_bool t (rating (bestMatch best))); eexists; reflexivity.
Qed.

Lemma bestMatch_after_empty_catalog {RT : Runtime} t gameNames l :
  l <> [] -> bestMatch_after t gameNames [] l = None.
Proof.
  destruct l as [|game l]; [congruence|]. intros _.
  rewrite bestMatch_after_unfold. simpl.
  apply fold_bestMatch_next_None.
Qed.

(** What the loop has recorded after the names [l]. *)
Lemma after_noMatch {RT : Runtime} t gameNames steamApps l : forall e,
  bestMatch_after t gameNames steamApps l = Some e ->
  bm_noMatch e =
  filter (fun g => negb (Qle_bool t (bestRating steamApps g))) l.
Proof.
  induction l as [|game l IH] using rev_ind; intros e H.
  - inversion H; subst; reflexivity.
  - rewrite bestMatch_after_snoc in H.
    destruct (bestMatch_after t gameNames steamApps l) as [e0|] eqn:E0;
      [|discriminate].
    destruct (bestMatch_after_frame _ _ _ _ _ E0) as [F1 F2].
    simpl in H. unfold bestMatch_at in H. rewrite F2 in H.
    rewrite filter_app. simpl. unfold bestRating at 2.
    destruct (findBestMatch (toLowerCase game) (lowercaseNames steamApps))
      as [best|]; [|discriminate].
    destruct (Qle_bool t (rating (bestMatch best))); simpl.
    + destruct (nth_error (bm_steamApps e0) (bestMatchIndex best));
        [|discriminate].
      inversion H; subst; simpl. rewrite app_nil_r. now apply IH.
    + inversion H; subst; simpl. now rewrite (IH e0).
Qed.

Lemma after_best_NoDup {RT : Runtime} t gameNames steamApps l : forall e,
  bestMatch_after t gameNames steamApps l = Some e ->
  NoDup (keys (bm_best e)).
Proof.
  induction l as [|game l IH] using rev_ind; intros e H.
  - inversion H; subst; constructor.
  - rewrite bestMatch_after_snoc in H.
    destruct (bestMatch_after t gameNames steamApps l) as [e0|] eqn:E0;
      [|discriminate].
    simpl in H. unfold bestMatch_at in H.
    destruct (findBestMatch _ _) as [best|]; [|discriminate].
    destruct (Qle_bool t (rating (bestMatch best))).
    + destruct (nth_error _ _); [|discriminate].
      inversion H; subst; simpl. apply NoDup_keys_set. now apply IH.
    + inversion H; subst; simpl. now apply IH.
Qed.

Lemma after_best_proto {RT : Runtime} t gameNames steamApps l g : forall e,
  ordinary g = false ->
  bestMatch_after t gameNames steamApps l = Some e ->
  get g (bm_best e) = None.
Proof.
  induction l as [|game l IH] using rev_ind; intros e O H.
  - inversion H; subst; reflexivity.
  - rewrite bestMatch_after_snoc in H.
    destruct (bestMatch_after t gameNames steamApps l) as [e0|] eqn:E0;
      [|discriminate].
    specialize (IH e0 O eq_refl).
    simpl in H. unfold bestMatch_at in H.
    destruct (findBestMatch _ _) as [best|]; [|discriminate].
    destruct (Qle_bool t (rating (bestMatch best))).
    + destruct (nth_error _ _); [|discriminate].
      inversion H; subst; simpl. now apply get_set_proto.
    + inversion H; subst; simpl. exact IH.
Qed.

Lemma after_best_get {RT : Runtime} t gameNames steamApps l g : forall e,
  ordinary g = true ->
  bestMatch_after t gameNames steamApps l = Some e ->
  get g (bm_best e) =
  if in_dec string_dec g l
  then (if Qle_bool t (bestRating steamApps g) then bestEntry steamApps g
        else None)
  else None.
Proof.
  induction l as [|game l IH] using rev_ind; intros e O H.
  - inversion H; subst; reflexivity.
  - rewrite bestMatch_after_snoc in H.
    destruct (bestMatch_after t gameNames steamApps l) as [e0|] eqn:E0;
      [|discriminate].
    destruct (bestMatch_after_frame _ _ _ _ _ E0) as [F1 F2].
    specialize (IH e0 O eq_refl).
    simpl in H. unfold bestMatch_at in H. rewrite F2, F1 in H.
    destruct (string_dec g game) as [->|Hne].
    + destruct (in_dec string_dec game (l ++ [game])) as [_|N];
        [|exfalso; apply N, in_or_app; right; now left].
      unfold bestRating, bestEntry in *.
      destruct (findBestMatch (toLowerCase game) (lowercaseNames steamApps))
        as [best|]; [|discriminate].
      destruct (Qle_bool t (rating (bestMatch best))) eqn:HQ.
      * destruct (nth_error steamApps (bestMatchIndex best)) as [app|];
          [|discriminate].
        inversion H; subst; simpl. now apply get_set_eq.
      * inversion H; subst; simpl. rewrite IH.
        destruct (in_dec string_dec game l); reflexivity.
    + assert (Hin : (if in_dec string_dec g (l ++ [game]) then true else false) =
                    (if in_dec string_dec g l then true else false)).
      { destruct (in_dec string_dec g l) as [I|N];
          destruct (in_dec string_dec g (l ++ [game])) as [I'|N'];
          try reflexivity.
        - exfalso; apply N', in_or_app; now left.
        - exfalso. apply in_app_or in I'. destruct I' as [I'|[E'|[]]];
            [now apply N | now apply Hne]. }
      assert (Hget : get g (bm_best e) = get g (bm_best e0)).
      { destruct (findBestMatch (toLowerCase game) (lowercaseNames steamApps))
          as [best|]; [|discriminate].
        destruct (Qle_bool t (rating (bestMatch best))).
        - destruct (nth_error steamApps (bestMatchIndex best)); [|discriminate].
          inversion H; subst; simpl. now apply get_set_ne.
        - inversion H; subst; reflexivity. }
      rewrite Hget, IH.
      destruct (in_dec string_dec g l);
        destruct (in_dec string_dec g (l ++ [game])); try reflexivity;
        discriminate.
Qed.

Lemma fullMatch_after_empty_catalog gameNames l :
  fullMatch_after gameNames [] l =
  {| fm_gameNames := gameNames; fm_steamApps := [];
     fm_single := empty; fm_multiple := empty; fm_remaining := l |}.
Proof.
  induction l as [|game l IH] using rev_ind; [reflexivity|].
  rewrite fullMatch_after_snoc, IH. reflexivity.
Qed.

Lemma findSteamAppIdsBestMatch_after {RT : Runtime} CONFIG gameNames steamApps :
  findSteamAppIdsBestMatch CONFIG gameNames steamApps =
  match bestMatch_after (threshold_of CONFIG) gameNames steamApps gameNames with
  | None => None
  | Some e =>
      Some {| steamIDsBestMatch :=
                fromEntries (sort by_similarity (entries (bm_best e)));
              steamIDsNoMatch := bm_noMatch e |}
  end.
Proof.
  unfold findSteamAppIdsBestMatch. now rewrite bestMatch_run_after.
Qed.

(* ================================================================== *)
(** * Sorting the entries and building the object again *)

Section SortFacts.

Context {A : Type} (gt : A -> A -> bool).

Lemma sort_insert_perm x l : Permutation (sort_insert gt x l) (x :: l).
Proof.
  induction l as [|y l IH]; simpl; [reflexivity|].
  destruct (gt x y); [|reflexivity].
  rewrite IH. apply perm_swap.
Qed.

Lemma sort_perm l : Permutation (sort gt l) l.
Proof.
  induction l as [|x l IH]; simpl; [reflexivity|].
  rewrite sort_insert_perm. now constructor.
Qed.

(** Elements that do not have to go behind [x] keep their order around
    it: the sort moves an element only past elements that come first. *)
Lemma filter_sort_insert (p : A -> bool) x l :
  (forall y, p x = true -> p y = true -> gt x y = false) ->
  filter p (sort_insert gt x l) = filter p (x :: l).
Proof.
  intros Hp. induction l as [|y l IH]; simpl; [reflexivity|].
  destruct (gt x y) eqn:G; simpl; [|reflexivity].
  simpl in IH. rewrite IH. specialize (Hp y).
  destruct (p x); [|reflexivity].
  destruct (p y); [|reflexivity].
  rewrite Hp in G by reflexivity. discriminate.
Qed.

(** Stability: a class of elements none of which has to go behind another
    one is in the same order after the sort as before. *)
Lemma sort_stable (p : A -> bool) l :
  (forall x y, p x = true -> p y = true -> gt x y = false) ->
  filter p (sort gt l) = filter p l.
Proof.
  intros Hp. induction l as [|x l IH]; simpl; [reflexivity|].
  rewrite filter_sort_insert by (intros y; apply Hp).
  simpl. now rewrite IH.
Qed.

(** The result is sorted for every transitive order [R] that the
    comparator decides. *)
Lemma sort_insert_sorted (R : A -> A -> Prop) x l :
  (forall a b c, R a b -> R b c -> R a c) ->
  (forall a b, gt a b = true -> R b a) ->
  (forall a b, gt a b = false -> R a b) ->
  StronglySorted R l -> StronglySorted R (sort_insert gt x l).
Proof.
  intros Htrans Hgt Hle. induction 1 as [|y l Hs IH Hall]; simpl.
  - constructor; constructor.
  - destruct (gt x y) eqn:G.
    + constructor; [exact IH|].
      apply (Permutation_Forall (Permutation_sym (sort_insert_perm x l))).
      constructor; [now apply Hgt | exact Hall].
    + constructor; [now constructor|].
      constructor; [now apply Hle|].
      apply (Forall_impl _ (fun z Hz => Htrans x y z (Hle _ _ G) Hz) Hall).
Qed.

Lemma sort_sorted (R : A -> A -> Prop) l :
  (forall a b c, R a b -> R b c -> R a c) ->
  (forall a b, gt a b = true -> R b a) ->
  (forall a b, gt a b = false -> R a b) ->
  StronglySorted R (sort gt l).
Proof.
  intros Htrans Hgt Hle. induction l as [|x l IH]; simpl.
  - constructor.
  - now apply sort_insert_sorted.
Qed.

End SortFacts.

Section EntriesFacts.

Context {V : Type}.
Implicit Types (l o : jsobj V) (k : string).

Lemma get_perm k l l' :
  Permutation l l' -> NoDup (keys l) -> get k l = get k l'.
Proof.
  induction 1 as [|[k1 v1] l l' P IH|[k1 v1] [k2 v2] l|l l' l'' P1 IH1 P2 IH2];
    intros ND.
  - reflexivity.
  - simpl. destruct (String.eqb k k1); [reflexivity|].
    apply IH. now inversion ND.
  - simpl. destruct (String.eqb_spec k k2) as [->|]; [|reflexivity].
    destruct (String.eqb_spec k2 k1) as [->|]; [|reflexivity].
    exfalso. simpl in ND. inversion ND as [|? ? N _]. apply N. now left.
  - rewrite IH1 by assumption. apply IH2.
    apply (Permutation_NoDup (Permutation_map fst P1) ND).
Qed.

Lemma get_fold_define k l : forall o,
  NoDup (keys l) ->
  get k (fold_left (fun o kv => define (fst kv) (snd kv) o) l o) =
  match get k l with Some v => Some v | None => get k o end.
Proof.
  induction l as [|[k1 v1] l IH]; intros o ND; simpl; [reflexivity|].
  inversion ND as [|? ? N ND']; subst.
  rewrite IH by assumption.
  destruct (String.eqb_spec k k1) as [->|Hne].
  - apply get_None_keys in N. rewrite N. apply get_define_eq.
  - destruct (get k l); [reflexivity|]. now apply get_define_ne.
Qed.

Lemma NoDup_keys_fromEntries l : NoDup (keys (fromEntries l)).
Proof.
  unfold fromEntries.
  assert (H : forall o, NoDup (keys o) ->
            NoDup (keys (fold_left (fun o kv => define (fst kv) (snd kv) o) l o))).
  { induction l as [|[k v] l IH]; intros o ND; simpl; [exact ND|].
    apply IH. now apply NoDup_keys_define. }
  apply H. constructor.
Qed.

Lemma get_fromEntries k l :
  NoDup (keys l) -> get k (fromEntries l) = get k l.
Proof.
  intros ND. unfold fromEntries. rewrite get_fold_define by assumption.
  now destruct (get k l).
Qed.

(** The object built again from its sorted entries holds the same value
    under every key. *)
Lemma get_fromEntries_sort (gt : string * V -> string * V -> bool) k o :
  NoDup (keys o) -> get k (fromEntries (sort gt (entries o))) = get k o.
Proof.
  intros ND. unfold entries.
  pose proof (sort_perm gt o) as P.
  rewrite get_fromEntries
    by (apply (Permutation_NoDup (Permutation_map fst (Permutation_sym P)) ND)).
  symmetry. now apply get_perm; [symmetry|].
Qed.

(** Keys that are not array indices are enumerated in order of creation:
    entries with distinct such keys give an object that enumerates them
    as they are listed. *)
Lemma fold_define_plain l : forall o,
  NoDup (keys o ++ keys l) ->
  Forall (fun kv => array_index (fst kv) = None) l ->
  fold_left (fun o kv => define (fst kv) (snd kv) o) l o = o ++ l.
Proof.
  induction l as [|[k1 v1] l IH]; intros o ND HF; simpl.
  - now rewrite app_nil_r.
  - inversion HF as [|? ? H1 HF']; subst. simpl in H1.
    assert (Hk : ~ In k1 (keys o)).
    { intros I. apply NoDup_remove_2 in ND. apply ND, in_or_app. now left. }
    assert (Hs : define k1 v1 o = o ++ [(k1, v1)]).
    { unfold define. apply has_false_keys in Hk. rewrite Hk.
      unfold create. now rewrite H1. }
    rewrite Hs, IH; [now rewrite <- app_assoc| |assumption].
    unfold keys in *. rewrite map_app. simpl. rewrite <- app_assoc. exact ND.
Qed.

Lemma fromEntries_plain l :
  NoDup (keys l) ->
  Forall (fun kv => array_index (fst kv) = None) l ->
  fromEntries l = l.
Proof.
  intros ND HF. unfold fromEntries. now rewrite fold_define_plain.
Qed.

End EntriesFacts.

(* ================================================================== *)
(** * Properties of the exact-match pass *)

Lemma count_keys_get {V : Type} (o : jsobj V) (k : string) :
  NoDup (keys o) ->
  count_occ string_dec (keys o) k =
  match get k o with Some _ => 1 | None => 0 end.
Proof.
  intros ND. destruct (get k o) eqn:E.
  - apply NoDup_count_occ'; [exact ND|].
    destruct (in_dec string_dec k (keys o)) as [I|N]; [exact I|].
    apply get_None_keys in N. congruence.
  - apply count_occ_not_In. now apply get_None_keys.
Qed.

Lemma in_count_min (l : list string) (g : string) :
  (if in_dec string_dec g l then 1 else 0) =
  Nat.min 1 (count_occ string_dec l g).
Proof.
  destruct (in_dec string_dec g l) as [I|N].
  - apply (count_occ_In string_dec) in I. lia.
  - apply (count_occ_not_In string_dec) in N. lia.
Qed.

Lemma single_count gameNames steamApps g :
  count_occ string_dec
    (keys (steamIDsSingleFullMatch (findSteamAppIdsFullMatch gameNames steamApps))) g =
  if (exactCount g steamApps =? 1) && ordinary g
  then Nat.min 1 (count_occ string_dec gameNames g) else 0.
Proof.
  unfold findSteamAppIdsFullMatch. cbn [steamIDsSingleFullMatch].
  rewrite fullMatch_run_after.
  rewrite count_keys_get by apply after_single_NoDup.
  rewrite after_single_get, <- in_count_min. unfold exactCount.
  destruct (fullMatchesOf g steamApps) as [|m [|m' ms]]; simpl;
    try reflexivity.
  destruct (in_dec string_dec g gameNames); now destruct (ordinary g).
Qed.

Lemma multiple_count gameNames steamApps g :
  count_occ string_dec
    (keys (steamIDsMultipleFullMatches
             (findSteamAppIdsFullMatch gameNames steamApps))) g =
  if (1 <? exactCount g steamApps) && ordinary g
  then Nat.min 1 (count_occ string_dec gameNames g) else 0.
Proof.
  unfold findSteamAppIdsFullMatch. cbn [steamIDsMultipleFullMatches].
  rewrite fullMatch_run_after.
  rewrite count_keys_get by apply after_multiple_NoDup.
  rewrite after_multiple_get, <- in_count_min. unfold exactCount.
  destruct (fullMatchesOf g steamApps) as [|m [|m' ms]]; simpl;
    try reflexivity.
  destruct (in_dec string_dec g gameNames); now destruct (ordinary g).
Qed.

Lemma remaining_filter gameNames steamApps :
  remainingGameNames (findSteamAppIdsFullMatch gameNames steamApps) =
  filter (fun g => exactCount g steamApps =? 0) gameNames.
Proof.
  unfold findSteamAppIdsFullMatch. cbn [remainingGameNames].
  rewrite fullMatch_run_after. apply after_remaining.
Qed.

Lemma groupNames_count gameNames steamApps g :
  count_occ string_dec
    (groupNames (findSteamAppIdsFullMatch gameNames steamApps)) g =
  if matched steamApps g
  then (if ordinary g then Nat.min 1 (count_occ string_dec gameNames g) else 0)
  else count_occ string_dec gameNames g.
Proof.
  unfold groupNames. rewrite !count_occ_app.
  rewrite single_count, multiple_count, remaining_filter, count_occ_filter.
  unfold matched.
  destruct (exactCount g steamApps) as [|[|n]]; destruct (ordinary g);
    simpl; lia.
Qed.

(** The name [__proto__] plays no part when it is not a query name with an
    exact match. *)
Lemma proto_unmatched_count gameNames steamApps g :
  ~ In "__proto__"%string (filter (matched steamApps) gameNames) ->
  ordinary g = false ->
  matched steamApps g = true ->
  count_occ string_dec gameNames g = 0.
Proof.
  intros H O M. apply ordinary_false in O. subst g.
  apply count_occ_not_In. intros I. apply H, filter_In. now split.
Qed.

(** C1, as stated, fails on the code: with the name "Portal" twice in the
    input and one catalog entry of that name, the unique-match grouping
    holds the name once, so that the names of the three groups, taken with
    multiplicity, are not the input list. *)
Lemma exact_partition_multiset_fails :
  exactCount "Portal" [ {| appid := 1; name := "Portal" |} ] = 1 /\
  ~ Permutation
      (groupNames
         (findSteamAppIdsFullMatch ["Portal"; "Portal"]%string
            [ {| appid := 1; name := "Portal" |} ]))
      ["Portal"; "Portal"]%string.
Proof.
  split; [reflexivity|].
  intros P. apply Permutation_length in P. vm_compute in P. discriminate.
Qed.

(** C1 (amended): for every catalog and every list of query names in which
    the name [__proto__] is not a name with an exact match, the exact-match
    pass puts a name in the group that the number of catalog entries with
    exactly that name selects (one: unique match; more than one: ambiguous
    match; zero: unmatched) and in no other group.  The unmatched list
    keeps every occurrence of its names, in input order; a name-keyed
    grouping holds a name once, however often the input has it.  Hence the
    names of the three groups, with multiplicity, are the input list
    exactly when no name with an exact match is repeated in the input. *)
Theorem exact_partition (gameNames : list string) (steamApps : list SteamApp) :
  ~ In "__proto__"%string (filter (matched steamApps) gameNames) ->
  remainingGameNames (findSteamAppIdsFullMatch gameNames steamApps) =
    filter (fun g => exactCount g steamApps =? 0) gameNames /\
  (forall g,
     count_occ string_dec
       (keys (steamIDsSingleFullMatch
                (findSteamAppIdsFullMatch gameNames steamApps))) g =
       (if exactCount g steamApps =? 1
        then Nat.min 1 (count_occ string_dec gameNames g) else 0) /\
     count_occ string_dec
       (keys (steamIDsMultipleFullMatches
                (findSteamAppIdsFullMatch gameNames steamApps))) g =
       (if 1 <? exactCount g steamApps
        then Nat.min 1 (count_occ string_dec gameNames g) else 0) /\
     count_occ string_dec
       (remainingGameNames (findSteamAppIdsFullMatch gameNames steamApps)) g =
       (if exactCount g steamApps =? 0
        then count_occ string_dec gameNames g else 0)) /\
  (Permutation (groupNames (findSteamAppIdsFullMatch gameNames steamApps))
               gameNames <->
   NoDup (filter (matched steamApps) gameNames)).
Proof.
  intros Hproto.
  assert (Hz : forall g, ordinary g = false -> matched steamApps g = true ->
                         count_occ string_dec gameNames g = 0).
  { intros g. now apply proto_unmatched_count. }
  split; [apply remaining_filter|]. split.
  - intros g. rewrite single_count, multiple_count, remaining_filter.
    specialize (Hz g). unfold matched in Hz.
    split; [|split; [|apply count_occ_filter]].
    + destruct (exactCount g steamApps) as [|[|n]]; simpl; try reflexivity.
      destruct (ordinary g); [reflexivity|]. now rewrite Hz.
    + destruct (exactCount g steamApps) as [|[|n]]; simpl; try reflexivity.
      destruct (ordinary g); [reflexivity|]. now rewrite Hz.
  - rewrite (Permutation_count_occ string_dec).
    rewrite (NoDup_count_occ string_dec).
    split; intros H g; specialize (H g); specialize (Hz g);
      rewrite groupNames_count in *; rewrite count_occ_filter in *;
      destruct (matched steamApps g); destruct (ordinary g);
      try rewrite Hz in * by reflexivity; lia.
Qed.

Lemma exact_partition_witness :
  remainingGameNames
    (findSteamAppIdsFullMatch ["Portal"; "portal 2"; "Halo"]%string
                              sample_catalog) =
    ["portal 2"; "Halo"]%string /\
  Permutation
    (groupNames
       (findSteamAppIdsFullMatch ["Portal"; "portal 2"; "Halo"]%string
                                 sample_catalog))
    ["Portal"; "portal 2"; "Halo"]%string.
Proof.
  assert (H : ~ In "__proto__"%string
                (filter (matched sample_catalog)
                        ["Portal"; "portal 2"; "Halo"]%string)).
  { vm_compute. intros [E|[]]. discriminate. }
  destruct (exact_partition ["Portal"; "portal 2"; "Halo"]%string
                            sample_catalog H) as (R & _ & P).
  split.
  - rewrite R. reflexivity.
  - apply P. vm_compute. repeat constructor; simpl; intuition discriminate.
Defined.

(** For every catalog with two or more entries whose name is exactly the
    query name [N], a name other than [__proto__], the exact-match pass
    records [N] as an ambiguous match, mapped to the identifiers of all the
    entries of that name, in catalog order; [N] is in neither of the other
    two groups. *)
Lemma ambiguous_match_ordinary_names
      (gameNames : list string) (steamApps : list SteamApp) (N : string) :
  N <> "__proto__"%string ->
  In N gameNames ->
  2 <= exactCount N steamApps ->
  get N (steamIDsMultipleFullMatches
           (findSteamAppIdsFullMatch gameNames steamApps)) =
    Some (map appid (filter (fun app => String.eqb (name app) N) steamApps)) /\
  get N (steamIDsSingleFullMatch
           (findSteamAppIdsFullMatch gameNames steamApps)) = None /\
  ~ In N (remainingGameNames (findSteamAppIdsFullMatch gameNames steamApps)).
Proof.
  intros HO HN Hc. apply ordinary_true in HO.
  unfold findSteamAppIdsFullMatch.
  cbn [steamIDsMultipleFullMatches steamIDsSingleFullMatch remainingGameNames].
  rewrite fullMatch_run_after, after_multiple_get, after_single_get,
    after_remaining.
  unfold exactCount in *. fold (fullMatchesOf N steamApps).
  destruct (fullMatchesOf N steamApps) as [|m [|m' ms]] eqn:E;
    simpl in Hc; try lia.
  rewrite HO. split; [|split].
  - now destruct (in_dec string_dec N gameNames).
  - reflexivity.
  - intros I. apply filter_In in I. destruct I as [_ I].
    rewrite E in I. discriminate.
Qed.

Example ambiguous_match_dune :
  get "Dune"
      (steamIDsMultipleFullMatches
         (findSteamAppIdsFullMatch ["Halo"; "Dune"]%string
            [ {| appid := 7; name := "Dune" |};
              {| appid := 3; name := "Halo" |};
              {| appid := 5; name := "Dune" |} ])) = Some [7%Z; 5%Z].
Proof.
  apply (ambiguous_match_ordinary_names
           ["Halo"; "Dune"]%string
           [ {| appid := 7; name := "Dune" |};
             {| appid := 3; name := "Halo" |};
             {| appid := 5; name := "Dune" |} ] "Dune").
  - discriminate.
  - simpl. right. left. reflexivity.
  - vm_compute. lia.
Qed.

(** C4 fails on the code at the query name [__proto__]: with two catalog
    entries of that name next to two entries named "Dune", the exact-match
    pass records the ambiguous match of "Dune" and nothing for
    [__proto__], which is in none of the three groups: the assignment of
    the list of identifiers under that key replaces the prototype of the
    result object and gives it no property. *)
Theorem ambiguous_match_proto_name :
  exactCount "__proto__" proto_catalog = 2 /\
  findSteamAppIdsFullMatch ["Dune"; "__proto__"]%string proto_catalog =
    {| steamIDsSingleFullMatch := [];
       steamIDsMultipleFullMatches := [("Dune"%string, [7%Z; 5%Z])];
       remainingGameNames := [] |} /\
  get "__proto__"
      (steamIDsMultipleFullMatches
         (findSteamAppIdsFullMatch ["Dune"; "__proto__"]%string
                                   proto_catalog)) = None.
Proof. vm_compute. repeat split. Qed.

(* ================================================================== *)
(** * Properties of the pipeline and of the score *)

(** C5: when [onlyFullMatches] is set, the pipeline stops after the
    exact-match pass: [findSteamAppIdsBestMatch] is not called, so that no
    similarity score is computed, and the only files written are those of
    the two exact-match groupings (each one only when it is not empty);
    there is neither a similarity-match nor a no-match output, whatever
    names are left without an exact match. *)
Theorem only_full_matches_short_circuit {RT : Runtime}
        (CONFIG : Config) (steamApps : list SteamApp) (gameNames : list string) :
  onlyFullMatches CONFIG = Some true ->
  bestMatchCall (main CONFIG steamApps gameNames) = None /\
  completed (main CONFIG steamApps gameNames) = true /\
  written (main CONFIG steamApps gameNames) =
    (if 0 <? List.length
               (keys (steamIDsSingleFullMatch
                        (findSteamAppIdsFullMatch gameNames steamApps)))
     then [("./output/steamAppIds_fullMatches.json"%string,
            SingleFullMatches
              (steamIDsSingleFullMatch
                 (findSteamAppIdsFullMatch gameNames steamApps)))]
     else []) ++
    (if 0 <? List.length
               (keys (steamIDsMultipleFullMatches
                        (findSteamAppIdsFullMatch gameNames steamApps)))
     then [("./output/steamAppIds_multipleFullMatches.json"%string,
            MultipleFullMatches
              (steamIDsMultipleFullMatches
                 (findSteamAppIdsFullMatch gameNames steamApps)))]
     else []) /\
  (forall file payload,
     In (file, payload) (written (main CONFIG steamApps gameNames)) ->
     (forall o, payload <> BestMatches o) /\
     (forall l, payload <> NoMatches l)).
Proof.
  intros Hflag.
  assert (Hmain : main CONFIG steamApps gameNames =
    {| written :=
         (if 0 <? List.length
                    (keys (steamIDsSingleFullMatch
                             (findSteamAppIdsFullMatch gameNames steamApps)))
          then [("./output/steamAppIds_fullMatches.json"%string,
                 SingleFullMatches
                   (steamIDsSingleFullMatch
                      (findSteamAppIdsFullMatch gameNames steamApps)))]
          else []) ++
         (if 0 <? List.length
                    (keys (steamIDsMultipleFullMatches
                             (findSteamAppIdsFullMatch gameNames steamApps)))
          then [("./output/steamAppIds_multipleFullMatches.json"%string,
                 MultipleFullMatches
                   (steamIDsMultipleFullMatches
                      (findSteamAppIdsFullMatch gameNames steamApps)))]
          else []);
       bestMatchCall := None;
       completed := true |}).
  { unfold main. rewrite Hflag. reflexivity. }
  rewrite Hmain. cbn [bestMatchCall completed written].
  repeat split.
  - destruct (0 <? _) in H; destruct (0 <? _) in H; simpl in H;
      intuition congruence.
  - destruct (0 <? _) in H; destruct (0 <? _) in H; simpl in H;
      intuition congruence.
Qed.

Lemma only_full_matches_short_circuit_witness :
  written (main {| onlyFullMatches := Some true;
                   partialMatchThreshold := Some (1 # 2) |}
                sample_catalog ["Portal"; "portal 2"; "Halo"]%string) =
  [("./output/steamAppIds_fullMatches.json"%string,
    SingleFullMatches [("Portal"%string, 1%Z)])].
Proof.
  destruct (only_full_matches_short_circuit
              {| onlyFullMatches := Some true;
                 partialMatchThreshold := Some (1 # 2) |}
              sample_catalog ["Portal"; "portal 2"; "Halo"]%string eq_refl)
    as (_ & _ & W & _).
  rewrite W. reflexivity.
Defined.

(** C7: the bigram-overlap similarity gives 1 on two identical strings, in
    particular on a string and itself after lower-casing; it lies between 0
    and 1; it is symmetric.  This holds of the score as the formula gives
    it and of the score of the strings without their white space, which the
    similarity pass uses. *)
Theorem similarity_identity_bounds_symmetry {RT : Runtime} (A B : string) :
  (compareTwoStrings A A = 1%Q /\
   compareTwoStrings (toLowerCase A) (toLowerCase A) = 1%Q /\
   (0 <= compareTwoStrings A B)%Q /\
   (compareTwoStrings A B <= 1)%Q /\
   compareTwoStrings A B = compareTwoStrings B A) /\
  (bigramScore A A = 1%Q /\
   bigramScore (toLowerCase A) (toLowerCase A) = 1%Q /\
   (0 <= bigramScore A B)%Q /\
   (bigramScore A B <= 1)%Q /\
   bigramScore A B = bigramScore B A).
Proof.
  split.
  - split; [apply compareTwoStrings_refl|].
    split; [apply compareTwoStrings_refl|].
    split; [apply compareTwoStrings_bounds|].
    split; [apply compareTwoStrings_bounds|].
    apply compareTwoStrings_sym.
  - split; [apply bigramScore_refl|].
    split; [apply bigramScore_refl|].
    split; [apply bigramScore_bounds|].
    split; [apply bigramScore_bounds|].
    apply bigramScore_sym.
Qed.

(* ================================================================== *)
(** * Repeated names *)

Lemma set_owned {V : Type} (k : string) (v w : V) (o : jsobj V) :
  ordinary k = true -> get k o = Some w -> set k v o = update k v o.
Proof.
  intros O H. rewrite set_ordinary by exact O. unfold define, has.
  now rewrite H.
Qed.

(** A name other than [__proto__] that occurs again in the input is
    processed again, on its own: the input is not deduplicated, the loop
    body runs for the later occurrence as for any other element and finds
    the same full matches as before.  In a name-keyed grouping the later
    occurrence assigns to the key that the earlier one created: the keys
    stay as they are, the value is the one of the later occurrence, and the
    grouping returned holds the name once, with that value.  In the list of
    unmatched names every occurrence is kept. *)
Lemma duplicate_names_overwrite_ordinary_names {RT : Runtime}
      (gameNames : list string) (steamApps : list SteamApp)
      (l1 l2 : list string) (g : string) :
  g <> "__proto__"%string ->
  gameNames = l1 ++ g :: l2 ->
  In g l1 ->
  fullMatch_after gameNames steamApps (l1 ++ [g]) =
    fullMatch_body g (fullMatch_after gameNames steamApps l1) /\
  fullMatchesOf g (fm_steamApps (fullMatch_after gameNames steamApps l1)) =
    fullMatchesOf g steamApps /\
  (forall m, fullMatchesOf g steamApps = [m] ->
     get g (fm_single (fullMatch_after gameNames steamApps l1)) =
       Some (appid m) /\
     fm_single (fullMatch_after gameNames steamApps (l1 ++ [g])) =
       update g (appid m) (fm_single (fullMatch_after gameNames steamApps l1)) /\
     keys (fm_single (fullMatch_after gameNames steamApps (l1 ++ [g]))) =
       keys (fm_single (fullMatch_after gameNames steamApps l1)) /\
     get g (steamIDsSingleFullMatch
              (findSteamAppIdsFullMatch gameNames steamApps)) =
       Some (appid m) /\
     count_occ string_dec
       (keys (steamIDsSingleFullMatch
                (findSteamAppIdsFullMatch gameNames steamApps))) g = 1) /\
  (2 <= exactCount g steamApps ->
     get g (fm_multiple (fullMatch_after gameNames steamApps l1)) =
       Some (map appid (fullMatchesOf g steamApps)) /\
     fm_multiple (fullMatch_after gameNames steamApps (l1 ++ [g])) =
       update g (map appid (fullMatchesOf g steamApps))
              (fm_multiple (fullMatch_after gameNames steamApps l1)) /\
     keys (fm_multiple (fullMatch_after gameNames steamApps (l1 ++ [g]))) =
       keys (fm_multiple (fullMatch_after gameNames steamApps l1)) /\
     get g (steamIDsMultipleFullMatches
              (findSteamAppIdsFullMatch gameNames steamApps)) =
       Some (map appid (fullMatchesOf g steamApps)) /\
     count_occ string_dec
       (keys (steamIDsMultipleFullMatches
                (findSteamAppIdsFullMatch gameNames steamApps))) g = 1) /\
  (exactCount g steamApps = 0 ->
     count_occ string_dec
       (remainingGameNames (findSteamAppIdsFullMatch gameNames steamApps)) g =
       count_occ string_dec gameNames g /\
     2 <= count_occ string_dec gameNames g) /\
  (forall CONFIG r,
     findSteamAppIdsBestMatch CONFIG gameNames steamApps = Some r ->
     count_occ string_dec (keys (steamIDsBestMatch r)) g =
       (if accepted (threshold_of CONFIG) steamApps g then 1 else 0) /\
     get g (steamIDsBestMatch r) =
       (if accepted (threshold_of CONFIG) steamApps g
        then bestEntry steamApps g else None) /\
     count_occ string_dec (steamIDsNoMatch r) g =
       (if accepted (threshold_of CONFIG) steamApps g
        then 0 else count_occ string_dec gameNames g)).
Proof.
  intros HO Hsplit H1. apply ordinary_true in HO.
  assert (Hin : In g gameNames).
  { rewrite Hsplit. apply in_or_app. right. now left. }
  assert (Hcount : 2 <= count_occ string_dec gameNames g).
  { rewrite Hsplit, count_occ_app. simpl.
    destruct (string_dec g g) as [_|N]; [|congruence].
    apply (count_occ_In string_dec) in H1. lia. }
  split; [apply fullMatch_after_snoc|].
  split; [now rewrite fullMatch_after_apps|].
  split; [|split; [|split]].
  - intros m Hm.
    assert (G1 : get g (fm_single (fullMatch_after gameNames steamApps l1)) =
                 Some (appid m)).
    { rewrite after_single_get, Hm, HO.
      now destruct (in_dec string_dec g l1). }
    assert (G2 : fm_single (fullMatch_after gameNames steamApps (l1 ++ [g])) =
                 update g (appid m)
                        (fm_single (fullMatch_after gameNames steamApps l1))).
    { rewrite fullMatch_after_snoc, body_single, fullMatch_after_apps, Hm.
      apply (set_owned _ _ _ _ HO G1). }
    split; [exact G1|]. split; [exact G2|].
    split; [rewrite G2; apply keys_update|].
    split.
    + unfold findSteamAppIdsFullMatch. cbn [steamIDsSingleFullMatch].
      rewrite fullMatch_run_after, after_single_get, Hm, HO.
      now destruct (in_dec string_dec g gameNames).
    + rewrite single_count, HO, andb_true_r. unfold exactCount. rewrite Hm.
      destruct (List.length [m] =? 1) eqn:E; [lia | discriminate].
  - intros Hc. unfold exactCount in Hc.
    destruct (fullMatchesOf g steamApps) as [|m [|m' ms]] eqn:Hm;
      simpl in Hc; try lia.
    assert (G1 : get g (fm_multiple (fullMatch_after gameNames steamApps l1)) =
                 Some (map appid (m :: m' :: ms))).
    { rewrite after_multiple_get, Hm, HO.
      now destruct (in_dec string_dec g l1). }
    assert (G2 : fm_multiple (fullMatch_after gameNames steamApps (l1 ++ [g])) =
                 update g (map appid (m :: m' :: ms))
                        (fm_multiple (fullMatch_after gameNames steamApps l1))).
    { rewrite fullMatch_after_snoc, body_multiple, fullMatch_after_apps, Hm.
      apply (set_owned _ _ _ _ HO G1). }
    split; [exact G1|]. split; [exact G2|].
    split; [rewrite G2; apply keys_update|].
    split.
    + unfold findSteamAppIdsFullMatch. cbn [steamIDsMultipleFullMatches].
      rewrite fullMatch_run_after, after_multiple_get, Hm, HO.
      now destruct (in_dec string_dec g gameNames).
    + rewrite multiple_count, HO, andb_true_r. unfold exactCount. rewrite Hm.
      destruct (1 <? List.length (m :: m' :: ms)) eqn:E; [lia|].
      apply Nat.ltb_ge in E. simpl in E. lia.
  - intros Hz. split; [|exact Hcount].
    rewrite remaining_filter, count_occ_filter, Hz. reflexivity.
  - intros CONFIG r Hr.
    rewrite findSteamAppIdsBestMatch_after in Hr.
    destruct (bestMatch_after (threshold_of CONFIG) gameNames steamApps
                              gameNames) as [e|] eqn:He; [|discriminate].
    inversion Hr; subst r; clear Hr.
    cbn [steamIDsBestMatch steamIDsNoMatch].
    pose proof (after_best_NoDup _ _ _ _ _ He) as Hnd.
    assert (Hget : get g (fromEntries (sort by_similarity (entries (bm_best e)))) =
                   if accepted (threshold_of CONFIG) steamApps g
                   then bestEntry steamApps g else None).
    { rewrite (get_fromEntries_sort by_similarity g _ Hnd).
      rewrite (after_best_get _ _ _ _ g _ HO He).
      now destruct (in_dec string_dec g gameNames). }
    split; [|split; [exact Hget|]].
    + rewrite count_keys_get by apply NoDup_keys_fromEntries.
      rewrite Hget. unfold accepted, bestRating, bestEntry.
      assert (Hne : steamApps <> []).
      { intros ->. rewrite bestMatch_after_empty_catalog in He; [discriminate|].
        intros ->. destruct Hin. }
      destruct (best_in_catalog steamApps (toLowerCase g) Hne)
        as (best & app & Hf & Hn & _).
      rewrite Hf, Hn. now destruct (Qle_bool _ _).
    + rewrite (after_noMatch _ _ _ _ _ He), count_occ_filter.
      unfold accepted. now destruct (Qle_bool _ _).
Qed.

Example duplicate_names_portal :
  get "Portal"
      (steamIDsSingleFullMatch
         (findSteamAppIdsFullMatch ["Portal"; "Halo"; "Portal"]%string
                                   sample_catalog)) = Some 1%Z /\
  count_occ string_dec
    (keys (steamIDsSingleFullMatch
             (findSteamAppIdsFullMatch ["Portal"; "Halo"; "Portal"]%string
                                       sample_catalog))) "Portal"%string = 1.
Proof.
  destruct (duplicate_names_overwrite_ordinary_names
              ["Portal"; "Halo"; "Portal"]%string sample_catalog
              ["Portal"; "Halo"]%string [] "Portal")
    as (_ & _ & S & _).
  - discriminate.
  - reflexivity.
  - simpl. left. reflexivity.
  - destruct (S {| appid := 1; name := "Portal" |} eq_refl)
      as (_ & _ & _ & G & C).
    split; [exact G | exact C].
Qed.

(** C8 fails on the code at the query name [__proto__]: with the names
    "Portal" and [__proto__] each twice in the input and one catalog entry
    of each name, both occurrences of [__proto__] find the same full match,
    but neither records it: the assignment under that key gives the
    grouping no property, so that there is no earlier value for the later
    occurrence to overwrite, and the grouping returned holds "Portal" only.
    No occurrence is in the list of unmatched names either. *)
Theorem duplicate_names_proto_name :
  fullMatchesOf "__proto__" proto_single_catalog =
    [ {| appid := 9; name := "__proto__" |} ] /\
  fm_single
    (fullMatch_after ["Portal"; "__proto__"; "Portal"; "__proto__"]%string
                     proto_single_catalog ["Portal"; "__proto__"]%string) =
    [("Portal"%string, 1%Z)] /\
  findSteamAppIdsFullMatch
    ["Portal"; "__proto__"; "Portal"; "__proto__"]%string
    proto_single_catalog =
    {| steamIDsSingleFullMatch := [("Portal"%string, 1%Z)];
       steamIDsMultipleFullMatches := [];
       remainingGameNames := [] |} /\
  get "__proto__"
      (steamIDsSingleFullMatch
         (findSteamAppIdsFullMatch
            ["Portal"; "__proto__"; "Portal"; "__proto__"]%string
            proto_single_catalog)) = None.
Proof. vm_compute. repeat split. Qed.

(* ================================================================== *)
(** * The inputs are left as they are *)

(** C9: neither pass changes the catalog or the list of query names it is
    given.  After any number of iterations of the exact-match loop both
    arrays are as they were at the call; so they are after any number of
    iterations of the similarity loop, where the lower-cased names are held
    in arrays of their own. *)
Theorem passes_do_not_mutate_inputs {RT : Runtime}
        (CONFIG : Config) (gameNames : list string) (steamApps : list SteamApp) :
  (forall fuel,
     fm_gameNames
       (fullMatch_loop fuel 0 (fullMatch_init gameNames steamApps)) = gameNames /\
     fm_steamApps
       (fullMatch_loop fuel 0 (fullMatch_init gameNames steamApps)) = steamApps) /\
  (forall fuel e,
     bestMatch_loop (threshold_of CONFIG) fuel 0
                    (bestMatch_init gameNames steamApps) = Some e ->
     bm_gameNames e = gameNames /\
     bm_steamApps e = steamApps /\
     steamAppsLowercase e = lowercaseNames steamApps /\
     gameNamesLowercase e = map toLowerCase gameNames).
Proof.
  split.
  - intros fuel. apply (fullMatch_loop_frame fuel 0).
  - intros fuel e H. apply bestMatch_loop_frame in H. exact H.
Qed.

Lemma passes_do_not_mutate_inputs_witness :
  exists e,
    bestMatch_run sample_config ["portal 2"; "Halo"]%string sample_catalog =
      Some e /\
    bm_gameNames e = ["portal 2"; "Halo"]%string /\
    bm_steamApps e = sample_catalog.
Proof.
  destruct (bestMatch_run sample_config ["portal 2"; "Halo"]%string
                          sample_catalog) as [e|] eqn:E;
    [|vm_compute in E; discriminate].
  exists e. split; [reflexivity|].
  destruct (passes_do_not_mutate_inputs
              sample_config ["portal 2"; "Halo"]%string sample_catalog)
    as [_ B].
  destruct (B _ e E) as (B1 & B2 & _). split; [exact B1 | exact B2].
Defined.

(* ================================================================== *)
(** * Properties of the similarity pass *)

(** C10: the similarity pass needs a non-empty catalog.  Over an empty
    catalog, with at least one name left, the best-match computation fails:
    the pass has no result, no name is routed to the no-match grouping, and
    [main] ends by the exception without having written a file.  Over a
    non-empty catalog the pass returns (its loop ends by its own condition:
    more fuel gives the same result), and for every query the index of the
    best match is inside the catalog, so that the entry is found. *)
Theorem best_match_needs_catalog {RT : Runtime}
        (CONFIG : Config) (gameNames : list string) (steamApps : list SteamApp) :
  (steamApps = [] -> gameNames <> [] ->
     findSteamAppIdsBestMatch CONFIG gameNames steamApps = None /\
     (truthy (onlyFullMatches CONFIG) = false ->
        completed (main CONFIG steamApps gameNames) = false /\
        written (main CONFIG steamApps gameNames) = [])) /\
  (steamApps <> [] ->
     (exists r, findSteamAppIdsBestMatch CONFIG gameNames steamApps = Some r) /\
     (forall extra,
        bestMatch_loop (threshold_of CONFIG) (List.length gameNames + extra) 0
                       (bestMatch_init gameNames steamApps) =
        bestMatch_run CONFIG gameNames steamApps) /\
     (forall q, exists best app,
        findBestMatch q (lowercaseNames steamApps) = Some best /\
        nth_error steamApps (bestMatchIndex best) = Some app)).
Proof.
  split.
  - intros -> Hne.
    assert (Hnone : findSteamAppIdsBestMatch CONFIG gameNames [] = None).
    { rewrite findSteamAppIdsBestMatch_after.
      now rewrite bestMatch_after_empty_catalog. }
    split; [exact Hnone|]. intros Hflag.
    unfold main, findSteamAppIdsFullMatch.
    rewrite fullMatch_run_after, fullMatch_after_empty_catalog.
    cbn [steamIDsSingleFullMatch steamIDsMultipleFullMatches
         remainingGameNames fm_single fm_multiple fm_remaining].
    rewrite Hflag, Hnone. split; reflexivity.
  - intros Hne. split; [|split].
    + rewrite findSteamAppIdsBestMatch_after.
      destruct (bestMatch_after_total (threshold_of CONFIG) gameNames
                                      steamApps gameNames Hne) as [e ->].
      eexists; reflexivity.
    + intros extra. apply bestMatch_loop_enough.
    + intros q.
      destruct (best_in_catalog steamApps q Hne) as (best & app & Hf & Hn & _).
      now exists best, app.
Qed.

Lemma best_match_needs_catalog_witness :
  findSteamAppIdsBestMatch sample_config ["Halo"]%string [] = None /\
  exists r,
    findSteamAppIdsBestMatch sample_config ["Halo"]%string sample_catalog =
    Some r.
Proof.
  split.
  - destruct (best_match_needs_catalog sample_config ["Halo"]%string [])
      as [E _].
    destruct (E eq_refl) as [H _]; [discriminate | exact H].
  - destruct (best_match_needs_catalog sample_config ["Halo"]%string
                                       sample_catalog) as [_ T].
    destruct T as [R _]; [discriminate | exact R].
Defined.

(** For every name other than [__proto__] handed to the similarity pass,
    the best match is the catalog entry with the greatest score of the
    lower-cased name against the lower-cased catalog names, and it is
    accepted if and only if that score is at least the threshold.  With a
    score equal to or above the threshold the name is recorded with the
    identifier of the entry, the score, and the name of the entry in its
    original casing, and is not in the no-match list; with a score below
    the threshold the name is in the no-match list and nothing is recorded
    for it. *)
Lemma threshold_acceptance_ordinary_names {RT : Runtime}
      (CONFIG : Config) (gameNames : list string) (steamApps : list SteamApp)
      (r : BestMatchResult) (g : string) :
  g <> "__proto__"%string ->
  findSteamAppIdsBestMatch CONFIG gameNames steamApps = Some r ->
  In g gameNames ->
  exists best app,
    findBestMatch (toLowerCase g) (lowercaseNames steamApps) = Some best /\
    nth_error steamApps (bestMatchIndex best) = Some app /\
    rating (bestMatch best) =
      compareTwoStrings (toLowerCase g) (toLowerCase (name app)) /\
    (forall a, In a steamApps ->
       (compareTwoStrings (toLowerCase g) (toLowerCase (name a))
        <= rating (bestMatch best))%Q) /\
    ((threshold_of CONFIG <= rating (bestMatch best))%Q ->
       get g (steamIDsBestMatch r) =
         Some {| appId := appid app;
                 similarity := rating (bestMatch best);
                 steamName := name app |} /\
       ~ In g (steamIDsNoMatch r)) /\
    ((rating (bestMatch best) < threshold_of CONFIG)%Q ->
       get g (steamIDsBestMatch r) = None /\
       In g (steamIDsNoMatch r)).
Proof.
  intros HO Hr Hg. apply ordinary_true in HO.
  rewrite findSteamAppIdsBestMatch_after in Hr.
  destruct (bestMatch_after (threshold_of CONFIG) gameNames steamApps gameNames)
    as [e|] eqn:He; [|discriminate].
  inversion Hr; subst r; clear Hr.
  cbn [steamIDsBestMatch steamIDsNoMatch].
  assert (Hne : steamApps <> []).
  { intros ->. rewrite bestMatch_after_empty_catalog in He; [discriminate|].
    intros ->. destruct Hg. }
  destruct (best_in_catalog steamApps (toLowerCase g) Hne)
    as (best & app & Hf & Hn & Hrat & Hmax & _).
  exists best, app.
  split; [exact Hf|]. split; [exact Hn|]. split; [exact Hrat|].
  split; [exact Hmax|].
  pose proof (after_best_get _ _ _ _ g _ HO He) as Hget.
  pose proof (after_noMatch _ _ _ _ _ He) as Hno.
  pose proof (after_best_NoDup _ _ _ _ _ He) as Hnd.
  rewrite (get_fromEntries_sort by_similarity g _ Hnd), Hget, Hno.
  unfold bestRating, bestEntry. rewrite Hf, Hn.
  destruct (in_dec string_dec g gameNames) as [_|N]; [|contradiction].
  split.
  - intros Hle. apply Qle_bool_iff in Hle. rewrite Hle.
    split; [reflexivity|].
    intros I. apply filter_In in I. destruct I as [_ I].
    unfold bestRating in I. rewrite Hf, Hle in I. discriminate.
  - intros Hlt.
    assert (Hb : Qle_bool (threshold_of CONFIG) (rating (bestMatch best)) = false).
    { destruct (Qle_bool (threshold_of CONFIG) (rating (bestMatch best)))
        eqn:B; [|reflexivity].
      apply Qle_bool_iff in B. exfalso. exact (Qlt_not_le _ _ Hlt B). }
    rewrite Hb. split; [reflexivity|].
    apply filter_In. split; [exact Hg|].
    unfold bestRating. now rewrite Hf, Hb.
Qed.

Example threshold_acceptance_sample :
  exists r,
    findSteamAppIdsBestMatch sample_config ["portal 2"; "Halo"]%string
                             sample_catalog = Some r /\
    get "portal 2" (steamIDsBestMatch r) =
      Some {| appId := 2; similarity := 1; steamName := "Portal 2" |} /\
    In "Halo"%string (steamIDsNoMatch r).
Proof.
  destruct (findSteamAppIdsBestMatch sample_config ["portal 2"; "Halo"]%string
                                     sample_catalog) as [r|] eqn:E;
    [|vm_compute in E; discriminate].
  exists r. split; [reflexivity|]. split.
  - destruct (threshold_acceptance_ordinary_names
                sample_config ["portal 2"; "Halo"]%string sample_catalog r
                "portal 2") as (best & app & Hf & Hn & _ & _ & Hacc & _).
    + discriminate.
    + exact E.
    + simpl. left. reflexivity.
    + vm_compute in Hf. inversion Hf; subst best; clear Hf.
      vm_compute in Hn. inversion Hn; subst app; clear Hn.
      apply Hacc. vm_compute. discriminate.
  - destruct (threshold_acceptance_ordinary_names
                sample_config ["portal 2"; "Halo"]%string sample_catalog r
                "Halo") as (best & app & Hf & _ & _ & _ & _ & Hrej).
    + discriminate.
    + exact E.
    + simpl. right. left. reflexivity.
    + vm_compute in Hf. inversion Hf; subst best; clear Hf.
      apply Hrej. vm_compute. reflexivity.
Qed.

(** C3 fails on the code at the query name [__proto__]: without a
    threshold, the pass is given the names [__proto__] and "Halo" over the
    sample catalog.  Both best scores pass the test against the threshold
    (the score 0 of [__proto__] is equal to the threshold), and "Halo" is
    recorded; for [__proto__] nothing is recorded, since the assignment of
    the entry under that key replaces the prototype of the result object
    and gives it no property, and the name is not in the no-match list
    either. *)
Theorem threshold_acceptance_proto_name :
  accepted (threshold_of no_threshold) sample_catalog "__proto__" = true /\
  findSteamAppIdsBestMatch no_threshold ["__proto__"; "Halo"]%string
                           sample_catalog =
    Some {| steamIDsBestMatch :=
              [("Halo"%string,
                {| appId := 1; similarity := 1 # 4; steamName := "Portal" |})];
            steamIDsNoMatch := [] |}.
Proof. vm_compute. split; reflexivity. Qed.

(* ================================================================== *)
(** * The order of the similarity matches *)

Lemma by_similarity_gt x y :
  by_similarity x y = true ->
  (similarity (snd x) <= similarity (snd y))%Q.
Proof.
  unfold by_similarity. intros H. apply negb_true_iff in H.
  apply Qlt_le_weak, Qnot_le_lt. intros L. apply Qle_bool_iff in L. congruence.
Qed.

Lemma by_similarity_le x y :
  by_similarity x y = false ->
  (similarity (snd y) <= similarity (snd x))%Q.
Proof.
  unfold by_similarity. intros H. apply negb_false_iff in H.
  now apply Qle_bool_iff.
Qed.

Lemma sort_by_similarity_descending (l : list (string * BestMatchEntry)) :
  descending (sort by_similarity l).
Proof.
  apply sort_sorted.
  - intros a b c Hab Hbc. eapply Qle_trans; eauto.
  - apply by_similarity_gt.
  - apply by_similarity_le.
Qed.

Lemma sort_by_similarity_stable (s : Q) (l : list (string * BestMatchEntry)) :
  filter (same_score s) (sort by_similarity l) = filter (same_score s) l.
Proof.
  apply sort_stable. intros x y Hx Hy.
  unfold same_score in *. apply Qeq_bool_iff in Hx, Hy.
  unfold by_similarity. apply negb_false_iff, Qle_bool_iff.
  rewrite Hx, Hy. apply Qle_refl.
Qed.

Lemma in_firstOccurrences (l : list string) (g : string) :
  In g (firstOccurrences l) <-> In g l.
Proof.
  unfold firstOccurrences.
  rewrite <- in_rev, nodup_In, <- in_rev. tauto.
Qed.

Lemma firstOccurrences_snoc (l : list string) (g : string) :
  firstOccurrences (l ++ [g]) =
  if in_dec string_dec g l then firstOccurrences l
  else firstOccurrences l ++ [g].
Proof.
  unfold firstOccurrences. rewrite rev_app_distr. simpl.
  destruct (in_dec string_dec g (rev l)) as [I|N];
    destruct (in_dec string_dec g l) as [I'|N']; try reflexivity.
  - exfalso. apply N'. now apply in_rev.
  - exfalso. apply N. now apply in_rev in I'.
Qed.

Lemma keys_set_plain {V : Type} (k : string) (v : V) (o : jsobj V) :
  array_index k = None ->
  keys (set k v o) =
  if ordinary k
  then (if in_dec string_dec k (keys o) then keys o else keys o ++ [k])
  else keys o.
Proof.
  intros Hk. unfold set. destruct (ordinary k); [|reflexivity].
  destruct (in_dec string_dec k (keys o)) as [I|N].
  - now apply keys_define_old.
  - unfold define. apply has_false_keys in N. rewrite N.
    unfold create. rewrite Hk. unfold keys. now rewrite map_app.
Qed.

(** With names that are not array indices, the keys of the mapping built by
    the loop are the accepted names other than [__proto__], in the order in
    which they were first processed. *)
Lemma after_best_keys_plain {RT : Runtime} t gameNames steamApps l : forall e,
  bestMatch_after t gameNames steamApps l = Some e ->
  Forall (fun g => array_index g = None) l ->
  keys (bm_best e) =
  firstOccurrences (filter (fun g => accepted t steamApps g && ordinary g) l).
Proof.
  induction l as [|game l IH] using rev_ind; intros e H HF.
  - inversion H; subst; reflexivity.
  - apply Forall_app in HF. destruct HF as [HF Hg].
    inversion Hg as [|? ? Hgame _]; subst.
    rewrite bestMatch_after_snoc in H.
    destruct (bestMatch_after t gameNames steamApps l) as [e0|] eqn:E0;
      [|discriminate].
    destruct (bestMatch_after_frame _ _ _ _ _ E0) as [F1 F2].
    specialize (IH e0 eq_refl HF).
    simpl in H. unfold bestMatch_at in H. rewrite F2, F1 in H.
    clear F1 F2.
    rewrite filter_app. simpl. unfold accepted at 2. unfold bestRating.
    destruct (findBestMatch (toLowerCase game) (lowercaseNames steamApps))
      as [best|]; [|discriminate].
    destruct (Qle_bool t (rating (bestMatch best))).
    + destruct (nth_error steamApps (bestMatchIndex best)); [|discriminate].
      inversion H; subst; simpl.
      rewrite keys_set_plain by assumption.
      destruct (ordinary game); simpl; [|now rewrite app_nil_r].
      rewrite firstOccurrences_snoc, IH.
      set (acc := filter (fun g => accepted t steamApps g && ordinary g) l).
      destruct (in_dec string_dec game (firstOccurrences acc)) as [I|N];
        destruct (in_dec string_dec game acc) as [I'|N']; try reflexivity.
      * exfalso. apply N'. now apply in_firstOccurrences.
      * exfalso. apply N. now apply in_firstOccurrences.
    + inversion H; subst; simpl. rewrite app_nil_r. exact IH.
Qed.

(** The part of C2 that holds: when no query name is an array index, the
    mapping returned by the similarity pass is enumerated by descending
    similarity, entries with equal similarity in the order in which their
    names were first processed (the mapping built by the loop holds the
    accepted names other than [__proto__] in that order). *)
Lemma best_match_order_plain_names {RT : Runtime}
      (CONFIG : Config) (gameNames : list string) (steamApps : list SteamApp)
      (r : BestMatchResult) :
  findSteamAppIdsBestMatch CONFIG gameNames steamApps = Some r ->
  Forall (fun g => array_index g = None) gameNames ->
  descending (steamIDsBestMatch r) /\
  exists e,
    bestMatch_run CONFIG gameNames steamApps = Some e /\
    keys (bm_best e) =
      firstOccurrences
        (filter (fun g => accepted (threshold_of CONFIG) steamApps g &&
                          ordinary g) gameNames) /\
    Permutation (steamIDsBestMatch r) (bm_best e) /\
    forall s,
      filter (same_score s) (steamIDsBestMatch r) =
      filter (same_score s) (bm_best e).
Proof.
  intros Hr HF.
  rewrite findSteamAppIdsBestMatch_after in Hr.
  destruct (bestMatch_after (threshold_of CONFIG) gameNames steamApps gameNames)
    as [e|] eqn:He; [|discriminate].
  inversion Hr; subst r; clear Hr. cbn [steamIDsBestMatch].
  pose proof (after_best_keys_plain _ _ _ _ _ He HF) as Hkeys.
  pose proof (after_best_NoDup _ _ _ _ _ He) as Hnd.
  assert (Hplain : Forall (fun kv : string * BestMatchEntry =>
                             array_index (fst kv) = None) (bm_best e)).
  { apply Forall_forall. intros [k v] Hkv. simpl.
    assert (Hk : In k (keys (bm_best e))) by (apply (in_map fst _ _ Hkv)).
    rewrite Hkeys in Hk. apply in_firstOccurrences, filter_In in Hk.
    destruct Hk as [Hk _]. rewrite Forall_forall in HF. now apply HF. }
  pose proof (sort_perm by_similarity (bm_best e)) as P.
  assert (Hfrom : fromEntries (sort by_similarity (entries (bm_best e))) =
                  sort by_similarity (bm_best e)).
  { unfold entries. apply fromEntries_plain.
    - apply (Permutation_NoDup (Permutation_map fst (Permutation_sym P)) Hnd).
    - apply (Permutation_Forall (Permutation_sym P) Hplain). }
  rewrite Hfrom. split; [apply sort_by_similarity_descending|].
  exists e. split; [now rewrite bestMatch_run_after|].
  split; [exact Hkeys|]. split; [exact P|].
  intros s. apply sort_by_similarity_stable.
Qed.

(** C2 fails on the code when a query name is an array index (the decimal
    numeral of an integer, as in the name "1942"): the object built from
    the sorted entries enumerates such keys first, in numeric order,
    whatever their similarity.  Here "portal" is matched with similarity 1
    and "1942" with similarity 2/3, and the mapping returned enumerates
    "1942" before "portal": it is not in descending order of similarity.
    Likewise, of the two names "zz" and "7", both matched with similarity
    0 and processed in this order, "7" is enumerated first. *)
Theorem best_match_order_numeric_names :
  findSteamAppIdsBestMatch no_threshold ["portal"; "1942"]%string
                           numeric_catalog =
    Some {| steamIDsBestMatch :=
              [ ("1942"%string,
                 {| appId := 2; similarity := 2 # 3; steamName := "1943" |});
                ("portal"%string,
                 {| appId := 400; similarity := 1; steamName := "Portal" |}) ];
            steamIDsNoMatch := [] |} /\
  ~ descending
      [ ("1942"%string,
         {| appId := 2; similarity := 2 # 3; steamName := "1943" |});
        ("portal"%string,
         {| appId := 400; similarity := 1; steamName := "Portal" |}) ] /\
  findSteamAppIdsBestMatch no_threshold ["zz"; "7"]%string numeric_catalog =
    Some {| steamIDsBestMatch :=
              [ ("7"%string,
                 {| appId := 400; similarity := 0; steamName := "Portal" |});
                ("zz"%string,
                 {| appId := 400; similarity := 0; steamName := "Portal" |}) ];
            steamIDsNoMatch := [] |}.
Proof.
  split; [vm_compute; reflexivity|]. split; [|vm_compute; reflexivity].
  intros H. inversion H as [|x l _ Hall]; subst.
  inversion Hall as [|y l' Hle _]; subst.
  vm_compute in Hle. apply Hle. reflexivity.
Qed.

(* ================================================================== *)
(** * Further properties of the two passes *)

(** X1: a query name with exactly one exact match in the catalog is in
    neither the ambiguous-match grouping nor the list of remaining names;
    it is recorded in the unique-match grouping with the identifier of that
    entry, unless it is the name [__proto__], which is not recorded. *)
Theorem unique_match_recorded
        (gameNames : list string) (steamApps : list SteamApp)
        (g : string) (m : SteamApp) :
  In g gameNames ->
  fullMatchesOf g steamApps = [m] ->
  get g (steamIDsSingleFullMatch
           (findSteamAppIdsFullMatch gameNames steamApps)) =
    (if ordinary g then Some (appid m) else None) /\
  name m = g /\
  get g (steamIDsMultipleFullMatches
           (findSteamAppIdsFullMatch gameNames steamApps)) = None /\
  ~ In g (remainingGameNames (findSteamAppIdsFullMatch gameNames steamApps)).
Proof.
  intros Hg Hm.
  unfold findSteamAppIdsFullMatch.
  cbn [steamIDsMultipleFullMatches steamIDsSingleFullMatch remainingGameNames].
  rewrite fullMatch_run_after, after_multiple_get, after_single_get,
    after_remaining, Hm.
  split; [now destruct (in_dec string_dec g gameNames)|].
  split; [|split; [reflexivity|]].
  - assert (I : In m (fullMatchesOf g steamApps)) by (rewrite Hm; now left).
    apply filter_In in I. destruct I as [_ I].
    now apply String.eqb_eq in I.
  - intros I. apply filter_In in I. destruct I as [_ I].
    unfold exactCount in I. rewrite Hm in I. discriminate.
Qed.

Lemma unique_match_recorded_witness :
  get "Portal 2"
      (steamIDsSingleFullMatch
         (findSteamAppIdsFullMatch ["Halo"; "Portal 2"]%string sample_catalog))
  = Some 2%Z /\
  get "__proto__"
      (steamIDsSingleFullMatch
         (findSteamAppIdsFullMatch ["__proto__"; "Portal"]%string
                                   proto_single_catalog))
  = None.
Proof.
  split.
  - apply (unique_match_recorded ["Halo"; "Portal 2"]%string sample_catalog
                                 "Portal 2" {| appid := 2; name := "Portal 2" |}).
    + simpl. right. left. reflexivity.
    + reflexivity.
  - apply (unique_match_recorded ["__proto__"; "Portal"]%string
                                 proto_single_catalog
                                 "__proto__" {| appid := 9; name := "__proto__" |}).
    + simpl. left. reflexivity.
    + reflexivity.
Defined.

Lemma best_result_get {RT : Runtime} CONFIG gameNames steamApps r g :
  findSteamAppIdsBestMatch CONFIG gameNames steamApps = Some r ->
  get g (steamIDsBestMatch r) =
  if ordinary g
  then (if in_dec string_dec g gameNames
        then (if accepted (threshold_of CONFIG) steamApps g
              then bestEntry steamApps g else None)
        else None)
  else None.
Proof.
  intros Hr. rewrite findSteamAppIdsBestMatch_after in Hr.
  destruct (bestMatch_after (threshold_of CONFIG) gameNames steamApps gameNames)
    as [e|] eqn:He; [|discriminate].
  inversion Hr; subst r; clear Hr. cbn [steamIDsBestMatch].
  rewrite (get_fromEntries_sort by_similarity g _
             (after_best_NoDup _ _ _ _ _ He)).
  destruct (ordinary g) eqn:O.
  - apply (after_best_get _ _ _ _ g _ O He).
  - apply (after_best_proto _ _ _ _ g _ O He).
Qed.

Lemma best_result_noMatch {RT : Runtime} CONFIG gameNames steamApps r :
  findSteamAppIdsBestMatch CONFIG gameNames steamApps = Some r ->
  steamIDsNoMatch r =
  filter (fun g => negb (accepted (threshold_of CONFIG) steamApps g)) gameNames.
Proof.
  intros Hr. rewrite findSteamAppIdsBestMatch_after in Hr.
  destruct (bestMatch_after (threshold_of CONFIG) gameNames steamApps gameNames)
    as [e|] eqn:He; [|discriminate].
  inversion Hr; subst r; clear Hr. cbn [steamIDsNoMatch].
  apply (after_noMatch _ _ _ _ _ He).
Qed.

Lemma best_result_catalog {RT : Runtime} CONFIG gameNames steamApps r g :
  findSteamAppIdsBestMatch CONFIG gameNames steamApps = Some r ->
  In g gameNames -> steamApps <> [].
Proof.
  intros Hr Hg ->. rewrite findSteamAppIdsBestMatch_after in Hr.
  rewrite bestMatch_after_empty_catalog in Hr; [discriminate|].
  intros ->. destruct Hg.
Qed.

(** Over a non-empty catalog the entry of the best match of a name is
    defined and is made of a catalog entry and its score. *)
Lemma bestEntry_catalog {RT : Runtime} steamApps g :
  steamApps <> [] ->
  exists app,
    In app steamApps /\
    bestEntry steamApps g =
      Some {| appId := appid app;
              similarity := bestRating steamApps g;
              steamName := name app |} /\
    bestRating steamApps g =
      compareTwoStrings (toLowerCase g) (toLowerCase (name app)).
Proof.
  intros Hne.
  destruct (best_in_catalog steamApps (toLowerCase g) Hne)
    as (best & app & Hf & Hn & Hr & _).
  exists app. unfold bestEntry, bestRating. rewrite Hf, Hn.
  split; [eapply nth_error_In; eauto|]. split; [reflexivity | exact Hr].
Qed.

Lemma in_keys_get {V : Type} (o : jsobj V) (k : string) :
  In k (keys o) <-> exists v, get k o = Some v.
Proof.
  split.
  - intros I. destruct (get k o) as [v|] eqn:E; [now exists v|].
    apply get_None_keys in E. contradiction.
  - intros [v E]. destruct (in_dec string_dec k (keys o)) as [I|N]; [exact I|].
    apply get_None_keys in N. congruence.
Qed.

Lemma best_result_keys {RT : Runtime} CONFIG gameNames steamApps r g :
  findSteamAppIdsBestMatch CONFIG gameNames steamApps = Some r ->
  In g (keys (steamIDsBestMatch r)) <->
  In g gameNames /\ accepted (threshold_of CONFIG) steamApps g = true /\
  ordinary g = true.
Proof.
  intros Hr. rewrite in_keys_get, (best_result_get _ _ _ _ g Hr).
  destruct (ordinary g);
    [|split; [intros [v E]; discriminate | intros (_ & _ & E); discriminate]].
  assert (T : forall P Q : Prop, (P /\ Q /\ true = true) <-> (P /\ Q))
    by (intros; tauto).
  rewrite T. clear T.
  destruct (in_dec string_dec g gameNames) as [I|N].
  - destruct (accepted (threshold_of CONFIG) steamApps g) eqn:A.
    + split; [intros _; now split|]. intros _.
      destruct (bestEntry_catalog steamApps g
                  (best_result_catalog _ _ _ _ g Hr I)) as (app & _ & E & _).
      rewrite E. eexists; reflexivity.
    + split; [intros [v E]; discriminate | intros [_ E]; discriminate].
  - split; [intros [v E]; discriminate | intros [I _]; contradiction].
Qed.

Lemma best_result_in_noMatch {RT : Runtime} CONFIG gameNames steamApps r g :
  findSteamAppIdsBestMatch CONFIG gameNames steamApps = Some r ->
  In g (steamIDsNoMatch r) <->
  In g gameNames /\ accepted (threshold_of CONFIG) steamApps g = false.
Proof.
  intros Hr. rewrite (best_result_noMatch _ _ _ _ Hr), filter_In.
  destruct (accepted (threshold_of CONFIG) steamApps g); simpl;
    intuition congruence.
Qed.

Lemma best_pass_total {RT : Runtime} CONFIG gameNames steamApps :
  steamApps <> [] ->
  exists r, findSteamAppIdsBestMatch CONFIG gameNames steamApps = Some r.
Proof.
  intros Hne. rewrite findSteamAppIdsBestMatch_after.
  destruct (bestMatch_after_total (threshold_of CONFIG) gameNames
                                  steamApps gameNames Hne) as [e ->].
  eexists; reflexivity.
Qed.

Lemma best_pass_empty_catalog {RT : Runtime} CONFIG gameNames :
  gameNames <> [] -> findSteamAppIdsBestMatch CONFIG gameNames [] = None.
Proof.
  intros Hne. rewrite findSteamAppIdsBestMatch_after.
  now rewrite bestMatch_after_empty_catalog.
Qed.

(* ================================================================== *)
(** * Letter case in the two passes *)

(** The best rating of a name whose lower-casing is the lower-casing of a
    catalog name is 1. *)
Lemma bestRating_same_lowercase {RT : Runtime} steamApps game app :
  In app steamApps ->
  toLowerCase game = toLowerCase (name app) ->
  exists best,
    findBestMatch (toLowerCase game) (lowercaseNames steamApps) = Some best /\
    rating (bestMatch best) = 1%Q /\
    bestRating steamApps game = 1%Q.
Proof.
  intros Hin Hlow.
  assert (Hne : steamApps <> []) by (intros ->; destruct Hin).
  destruct (best_in_catalog steamApps (toLowerCase game) Hne)
    as (best & app' & Hf & _ & Hrat & Hmax & _).
  exists best. split; [exact Hf|].
  assert (H1 : rating (bestMatch best) = 1%Q).
  { rewrite Hrat. apply compareTwoStrings_one. apply Qle_antisym.
    - apply compareTwoStrings_bounds.
    - rewrite <- Hrat. specialize (Hmax app Hin).
      rewrite <- Hlow, compareTwoStrings_refl in Hmax. exact Hmax. }
  split; [exact H1|]. unfold bestRating. now rewrite Hf.
Qed.

(** C6, as stated, fails on the code: the catalog has the names "Portal"
    and "portal", and "portal" is a query name.  The query name and the
    catalog name "Portal" differ in letter case only, and the exact-match
    pass does not count "Portal" as an exact match of "portal".  But
    "portal" has an exact match of its own, so that in this run the
    similarity pass is given no name at all: the pair is never scored, and
    the similarity-match mapping written is empty. *)
Lemma case_asymmetry_exact_match_not_rated :
  "portal"%string <> "Portal"%string /\
  toLowerCase "portal" = toLowerCase "Portal" /\
  fullMatchesOf "portal" case_catalog = [ {| appid := 2; name := "portal" |} ] /\
  bestMatchCall (main no_threshold case_catalog ["portal"]%string) = Some [] /\
  written (main no_threshold case_catalog ["portal"]%string) =
    [ ("./output/steamAppIds_fullMatches.json"%string,
       SingleFullMatches [("portal"%string, 2%Z)]);
      ("./output/steamAppIds_bestMatch.json"%string, BestMatches []) ].
Proof.
  split; [discriminate|]. vm_compute. repeat split.
Qed.

(** C6 (amended): for every query name without an exact match in the
    catalog and every catalog entry whose name has the same lower-casing
    as the query name, the two names differ (in letter case only) and the
    exact-match pass records no exact match for the query name, which is
    among the names left; the similarity pass, run over the names left,
    scores the lower-cased pair 1, and 1 is the best rating of the query
    name.  With a threshold of at most 1 the query name is not in the
    no-match list and, unless it is the name [__proto__], it is recorded
    with similarity 1.  Both happen in one run of [main] in which
    [onlyFullMatches] is not set: the similarity pass is called with the
    names that the exact-match pass has left, and its mapping is written
    to the similarity-match file. *)
Theorem case_asymmetry {RT : Runtime}
        (CONFIG : Config) (gameNames : list string) (steamApps : list SteamApp)
        (game : string) (app : SteamApp) :
  In game gameNames ->
  In app steamApps ->
  toLowerCase game = toLowerCase (name app) ->
  exactCount game steamApps = 0 ->
  (name app <> game /\
   get game (steamIDsSingleFullMatch
               (findSteamAppIdsFullMatch gameNames steamApps)) = None /\
   get game (steamIDsMultipleFullMatches
               (findSteamAppIdsFullMatch gameNames steamApps)) = None /\
   In game (remainingGameNames
              (findSteamAppIdsFullMatch gameNames steamApps))) /\
  exists b best,
    findSteamAppIdsBestMatch
      CONFIG
      (remainingGameNames (findSteamAppIdsFullMatch gameNames steamApps))
      steamApps = Some b /\
    compareTwoStrings (toLowerCase game) (toLowerCase (name app)) = 1%Q /\
    findBestMatch (toLowerCase game) (lowercaseNames steamApps) = Some best /\
    rating (bestMatch best) = 1%Q /\
    ((threshold_of CONFIG <= 1)%Q ->
       ~ In game (steamIDsNoMatch b) /\
       (game <> "__proto__"%string ->
        exists entry,
          get game (steamIDsBestMatch b) = Some entry /\
          similarity entry = 1%Q)) /\
    (truthy (onlyFullMatches CONFIG) = false ->
       bestMatchCall (main CONFIG steamApps gameNames) =
         Some (remainingGameNames
                 (findSteamAppIdsFullMatch gameNames steamApps)) /\
       In ("./output/steamAppIds_bestMatch.json"%string,
           BestMatches (steamIDsBestMatch b))
          (written (main CONFIG steamApps gameNames))).
Proof.
  intros Hgame Happ Hlow Hzero.
  assert (Hne : steamApps <> []) by (intros ->; destruct Happ).
  assert (Hrem : In game (remainingGameNames
                            (findSteamAppIdsFullMatch gameNames steamApps))).
  { rewrite remaining_filter. apply filter_In. split; [exact Hgame|].
    now apply Nat.eqb_eq. }
  split.
  - split; [|split; [|split; [|exact Hrem]]].
    + intros E. unfold exactCount in Hzero.
      assert (I : In app (fullMatchesOf game steamApps)).
      { apply filter_In. split; [exact Happ|]. now apply String.eqb_eq. }
      destruct (fullMatchesOf game steamApps); [destruct I | discriminate].
    + unfold findSteamAppIdsFullMatch. cbn [steamIDsSingleFullMatch].
      rewrite fullMatch_run_after, after_single_get.
      unfold exactCount in Hzero.
      now destruct (fullMatchesOf game steamApps).
    + unfold findSteamAppIdsFullMatch. cbn [steamIDsMultipleFullMatches].
      rewrite fullMatch_run_after, after_multiple_get.
      unfold exactCount in Hzero.
      now destruct (fullMatchesOf game steamApps).
  - destruct (best_pass_total
                CONFIG
                (remainingGameNames
                   (findSteamAppIdsFullMatch gameNames steamApps))
                steamApps Hne) as [b Hb].
    destruct (bestRating_same_lowercase steamApps game app Happ Hlow)
      as (best & Hf & H1 & Hbest).
    exists b, best. split; [exact Hb|].
    split; [rewrite Hlow; apply compareTwoStrings_refl|].
    split; [exact Hf|]. split; [exact H1|]. split.
    + intros Ht.
      assert (Hacc : accepted (threshold_of CONFIG) steamApps game = true).
      { unfold accepted. rewrite Hbest. now apply Qle_bool_iff. }
      split.
      * intros I. apply (best_result_in_noMatch _ _ _ _ game Hb) in I.
        destruct I as [_ I]. congruence.
      * intros HO. apply ordinary_true in HO.
        destruct (bestEntry_catalog steamApps game Hne) as (a & _ & E & _).
        exists {| appId := appid a;
                  similarity := bestRating steamApps game;
                  steamName := name a |}.
        split; [|exact Hbest].
        rewrite (best_result_get _ _ _ _ game Hb), HO, Hacc.
        destruct (in_dec string_dec game
                    (remainingGameNames
                       (findSteamAppIdsFullMatch gameNames steamApps)));
          [exact E | contradiction].
    + intros Hflag. unfold main. rewrite Hflag. simpl negb. cbv iota.
      rewrite Hb. cbn [bestMatchCall written].
      split; [reflexivity|].
      apply in_or_app. right. apply in_or_app. right. now left.
Qed.

Lemma case_asymmetry_witness :
  get "portal 2"
      (steamIDsSingleFullMatch
         (findSteamAppIdsFullMatch ["Portal"; "portal 2"; "Halo"]%string
                                   sample_catalog)) = None /\
  exists b entry,
    findSteamAppIdsBestMatch sample_config ["portal 2"; "Halo"]%string
                             sample_catalog = Some b /\
    get "portal 2" (steamIDsBestMatch b) = Some entry /\
    similarity entry = 1%Q.
Proof.
  destruct (case_asymmetry sample_config
              ["Portal"; "portal 2"; "Halo"]%string sample_catalog
              "portal 2" {| appid := 2; name := "Portal 2" |})
    as ((_ & S & _) & b & best & Hb & _ & _ & _ & Hrec & _).
  - simpl. right. left. reflexivity.
  - simpl. right. left. reflexivity.
  - reflexivity.
  - reflexivity.
  - split; [exact S|].
    destruct Hrec as [_ Hrec]; [vm_compute; discriminate|].
    destruct Hrec as (entry & G & E); [discriminate|].
    exists b, entry. split; [exact Hb|]. split; [exact G | exact E].
Defined.

(** X2: the similarity pass splits the names it is given in two: the names
    whose best rating is below the threshold are the no-match list, every
    occurrence kept, in input order; the names other than [__proto__]
    whose best rating reaches the threshold are the keys of the
    similarity-match mapping, each one once.  No name is in both and none
    is invented; the name [__proto__], when its best rating reaches the
    threshold, is in neither. *)
Theorem similarity_partition {RT : Runtime}
        (CONFIG : Config) (gameNames : list string) (steamApps : list SteamApp)
        (r : BestMatchResult) :
  findSteamAppIdsBestMatch CONFIG gameNames steamApps = Some r ->
  steamIDsNoMatch r =
    filter (fun g => negb (accepted (threshold_of CONFIG) steamApps g))
           gameNames /\
  NoDup (keys (steamIDsBestMatch r)) /\
  (forall g, In g (keys (steamIDsBestMatch r)) <->
             In g gameNames /\
             accepted (threshold_of CONFIG) steamApps g = true /\
             ordinary g = true) /\
  (forall g, In g (steamIDsNoMatch r) <->
             In g gameNames /\ accepted (threshold_of CONFIG) steamApps g = false).
Proof.
  intros Hr.
  pose proof (best_result_noMatch _ _ _ _ Hr) as Hno.
  split; [exact Hno|]. split; [|split].
  - rewrite findSteamAppIdsBestMatch_after in Hr.
    destruct (bestMatch_after _ _ _ _); [|discriminate].
    inversion Hr; subst r. apply NoDup_keys_fromEntries.
  - intros g. now apply best_result_keys.
  - intros g. now apply best_result_in_noMatch.
Qed.

Lemma similarity_partition_witness :
  exists r,
    findSteamAppIdsBestMatch sample_config
      ["portal 2"; "Halo"; "__proto__"; "Halo"]%string proto_single_catalog =
      Some r /\
    steamIDsNoMatch r = ["Halo"; "Halo"]%string /\
    ~ In "__proto__"%string (keys (steamIDsBestMatch r)).
Proof.
  destruct (findSteamAppIdsBestMatch
              sample_config ["portal 2"; "Halo"; "__proto__"; "Halo"]%string
              proto_single_catalog)
    as [r|] eqn:E; [|vm_compute in E; discriminate].
  exists r. split; [reflexivity|].
  destruct (similarity_partition _ _ _ r E) as (Hno & _ & Hk & _).
  split.
  - rewrite Hno. vm_compute. reflexivity.
  - intros I. apply Hk in I. destruct I as (_ & _ & O). discriminate.
Defined.

(** X3: an entry of the similarity-match mapping is never made up: its key
    is one of the names given, its identifier and its name are those of
    one catalog entry, its similarity is the score of the lower-cased name
    against the lower-cased name of that entry, and this score is at least
    the threshold and between 0 and 1. *)
Theorem recorded_entries_sound {RT : Runtime}
        (CONFIG : Config) (gameNames : list string) (steamApps : list SteamApp)
        (r : BestMatchResult) (g : string) (entry : BestMatchEntry) :
  findSteamAppIdsBestMatch CONFIG gameNames steamApps = Some r ->
  get g (steamIDsBestMatch r) = Some entry ->
  In g gameNames /\
  (exists app,
     In app steamApps /\
     appId entry = appid app /\
     steamName entry = name app /\
     similarity entry =
       compareTwoStrings (toLowerCase g) (toLowerCase (name app))) /\
  (threshold_of CONFIG <= similarity entry)%Q /\
  (0 <= similarity entry)%Q /\
  (similarity entry <= 1)%Q.
Proof.
  intros Hr Hget. rewrite (best_result_get _ _ _ _ g Hr) in Hget.
  destruct (ordinary g); [|discriminate].
  destruct (in_dec string_dec g gameNames) as [I|N]; [|discriminate].
  destruct (accepted (threshold_of CONFIG) steamApps g) eqn:A; [|discriminate].
  destruct (bestEntry_catalog steamApps g (best_result_catalog _ _ _ _ g Hr I))
    as (app & Hin & E & Hrat).
  rewrite E in Hget. inversion Hget; subst entry; clear Hget.
  cbn [appId steamName similarity].
  split; [exact I|]. split.
  - exists app. repeat apply conj; auto.
  - split; [now apply Qle_bool_iff|].
    rewrite Hrat. apply compareTwoStrings_bounds.
Qed.

Lemma recorded_entries_sound_witness :
  exists r,
    findSteamAppIdsBestMatch sample_config ["portal 2"; "Halo"]%string
                             sample_catalog = Some r /\
    exists entry,
      get "portal 2" (steamIDsBestMatch r) = Some entry /\
      (threshold_of sample_config <= similarity entry)%Q.
Proof.
  destruct (findSteamAppIdsBestMatch
              sample_config ["portal 2"; "Halo"]%string sample_catalog)
    as [r|] eqn:E; [|vm_compute in E; discriminate].
  exists r. split; [reflexivity|].
  destruct (get "portal 2" (steamIDsBestMatch r)) as [entry|] eqn:G.
  - exists entry. split; [reflexivity|].
    destruct (recorded_entries_sound _ _ _ r "portal 2" entry E G)
      as (_ & _ & T & _). exact T.
  - vm_compute in E. inversion E; subst r. vm_compute in G. discriminate.
Defined.

Lemma filter_none {A : Type} (p : A -> bool) (l : list A) :
  (forall x, In x l -> p x = false) -> filter p l = [].
Proof.
  induction l as [|x l IH]; intros H; simpl; [reflexivity|].
  rewrite (H x) by now left. apply IH. intros y Hy. apply H. now right.
Qed.

(** X4: when [partialMatchThreshold] is left out of the configuration, or
    is 0, the similarity pass finds a match for every name it is given:
    the no-match list is empty, and every name other than [__proto__] is a
    key of the similarity-match mapping; the name [__proto__] is not. *)
Theorem default_threshold_matches_everything {RT : Runtime}
        (CONFIG : Config) (gameNames : list string) (steamApps : list SteamApp)
        (r : BestMatchResult) :
  partialMatchThreshold CONFIG = None \/
  partialMatchThreshold CONFIG = Some 0%Q ->
  findSteamAppIdsBestMatch CONFIG gameNames steamApps = Some r ->
  steamIDsNoMatch r = [] /\
  (forall g, In g gameNames -> g <> "__proto__"%string ->
     exists entry, get g (steamIDsBestMatch r) = Some entry) /\
  get "__proto__" (steamIDsBestMatch r) = None.
Proof.
  intros Hcfg Hr.
  assert (Ht : threshold_of CONFIG = 0%Q).
  { unfold threshold_of. destruct Hcfg as [-> | ->]; reflexivity. }
  assert (Hacc : forall g, accepted (threshold_of CONFIG) steamApps g = true).
  { intros g. rewrite Ht. unfold accepted. apply Qle_bool_iff.
    unfold bestRating.
    destruct (findBestMatch (toLowerCase g) (lowercaseNames steamApps))
      as [best|] eqn:F; [|apply Qle_refl].
    destruct steamApps as [|a l]; [discriminate|].
    destruct (best_in_catalog (a :: l) (toLowerCase g))
      as (best' & app & Hf & _ & Hrat & _); [discriminate|].
    rewrite F in Hf. inversion Hf; subst best'.
    rewrite Hrat. apply compareTwoStrings_bounds. }
  split; [|split].
  - rewrite (best_result_noMatch _ _ _ _ Hr).
    apply filter_none. intros g _. now rewrite Hacc.
  - intros g Hg HO. apply in_keys_get.
    apply (best_result_keys _ _ _ _ g Hr).
    split; [exact Hg|]. split; [apply Hacc | now apply ordinary_true].
  - now rewrite (best_result_get _ _ _ _ "__proto__" Hr).
Qed.

Lemma default_threshold_matches_everything_witness :
  exists r,
    findSteamAppIdsBestMatch no_threshold ["Halo"; "xyz"]%string sample_catalog
      = Some r /\
    steamIDsNoMatch r = [] /\
    exists entry, get "xyz" (steamIDsBestMatch r) = Some entry.
Proof.
  destruct (findSteamAppIdsBestMatch no_threshold ["Halo"; "xyz"]%string
                                     sample_catalog)
    as [r|] eqn:E; [|vm_compute in E; discriminate].
  exists r. split; [reflexivity|].
  destruct (default_threshold_matches_everything
              no_threshold ["Halo"; "xyz"]%string sample_catalog r)
    as (H & G & _); [left; reflexivity | exact E |].
  split; [exact H|]. apply G.
  - simpl. right. left. reflexivity.
  - discriminate.
Defined.

Lemma filter_filter_sub {A : Type} (p q : A -> bool) (l : list A) :
  (forall x, p x = true -> q x = true) ->
  filter p (filter q l) = filter p l.
Proof.
  intros H. induction l as [|x l IH]; simpl; [reflexivity|].
  destruct (q x) eqn:Q; simpl.
  - now rewrite IH.
  - destruct (p x) eqn:P; [|exact IH].
    rewrite (H x P) in Q. discriminate.
Qed.

Lemma accepted_antitone {RT : Runtime} t1 t2 steamApps g :
  (t1 <= t2)%Q ->
  accepted t2 steamApps g = true -> accepted t1 steamApps g = true.
Proof.
  unfold accepted. intros Hle H. apply Qle_bool_iff in H.
  apply Qle_bool_iff. eapply Qle_trans; eauto.
Qed.

(** X5: raising the threshold only moves names from the similarity-match
    mapping to the no-match list.  Of two runs over the same names and
    catalog, the one with the lower threshold has as its no-match list the
    no-match list of the other without the names it accepts, in the same
    order, and it records every entry the other records, with the same
    value. *)
Theorem threshold_monotone {RT : Runtime}
        (CONFIG1 CONFIG2 : Config) (gameNames : list string)
        (steamApps : list SteamApp) (r1 r2 : BestMatchResult) :
  (threshold_of CONFIG1 <= threshold_of CONFIG2)%Q ->
  findSteamAppIdsBestMatch CONFIG1 gameNames steamApps = Some r1 ->
  findSteamAppIdsBestMatch CONFIG2 gameNames steamApps = Some r2 ->
  steamIDsNoMatch r1 =
    filter (fun g => negb (accepted (threshold_of CONFIG1) steamApps g))
           (steamIDsNoMatch r2) /\
  (forall g entry,
     get g (steamIDsBestMatch r2) = Some entry ->
     get g (steamIDsBestMatch r1) = Some entry).
Proof.
  intros Hle H1 H2. split.
  - rewrite (best_result_noMatch _ _ _ _ H1), (best_result_noMatch _ _ _ _ H2).
    symmetry. apply filter_filter_sub. intros g Hg.
    apply negb_true_iff in Hg. apply negb_true_iff.
    destruct (accepted (threshold_of CONFIG2) steamApps g) eqn:A;
      [|reflexivity].
    rewrite (accepted_antitone _ _ _ _ Hle A) in Hg. discriminate.
  - intros g entry. rewrite (best_result_get _ _ _ _ g H1),
      (best_result_get _ _ _ _ g H2).
    destruct (ordinary g); [|discriminate].
    destruct (in_dec string_dec g gameNames); [|discriminate].
    destruct (accepted (threshold_of CONFIG2) steamApps g) eqn:A;
      [|discriminate].
    now rewrite (accepted_antitone _ _ _ _ Hle A).
Qed.

Lemma threshold_monotone_witness :
  exists r1 r2,
    findSteamAppIdsBestMatch no_threshold ["portal 2"; "Halo"]%string
                             sample_catalog = Some r1 /\
    findSteamAppIdsBestMatch sample_config ["portal 2"; "Halo"]%string
                             sample_catalog = Some r2 /\
    steamIDsNoMatch r2 = ["Halo"]%string /\
    steamIDsNoMatch r1 = [].
Proof.
  destruct (findSteamAppIdsBestMatch no_threshold ["portal 2"; "Halo"]%string
                                     sample_catalog)
    as [r1|] eqn:E1; [|vm_compute in E1; discriminate].
  destruct (findSteamAppIdsBestMatch sample_config ["portal 2"; "Halo"]%string
                                     sample_catalog)
    as [r2|] eqn:E2; [|vm_compute in E2; discriminate].
  exists r1, r2. split; [reflexivity|]. split; [reflexivity|].
  assert (N2 : steamIDsNoMatch r2 = ["Halo"]%string).
  { vm_compute in E2. inversion E2. reflexivity. }
  split; [exact N2|].
  destruct (threshold_monotone no_threshold sample_config
              ["portal 2"; "Halo"]%string sample_catalog r1 r2) as [H _].
  - vm_compute. discriminate.
  - exact E1.
  - exact E2.
  - rewrite H, N2. vm_compute. reflexivity.
Defined.

(** X6: with a threshold above 1 no name is accepted: the similarity-match
    mapping is empty and the no-match list is the list of names given, as
    it is. *)
Theorem threshold_above_one_matches_nothing {RT : Runtime}
        (CONFIG : Config) (gameNames : list string) (steamApps : list SteamApp)
        (r : BestMatchResult) :
  (1 < threshold_of CONFIG)%Q ->
  findSteamAppIdsBestMatch CONFIG gameNames steamApps = Some r ->
  steamIDsBestMatch r = [] /\ steamIDsNoMatch r = gameNames.
Proof.
  intros Ht Hr.
  assert (Hacc : forall g, accepted (threshold_of CONFIG) steamApps g = false).
  { intros g. unfold accepted.
    destruct (Qle_bool (threshold_of CONFIG) (bestRating steamApps g)) eqn:B;
      [|reflexivity].
    apply Qle_bool_iff in B. exfalso.
    assert (Hb : (bestRating steamApps g <= 1)%Q).
    { unfold bestRating.
      destruct (findBestMatch (toLowerCase g) (lowercaseNames steamApps))
        as [best|] eqn:F; [|unfold Qle; simpl; lia].
      destruct steamApps as [|a l]; [discriminate|].
      destruct (best_in_catalog (a :: l) (toLowerCase g))
        as (best' & app & Hf & _ & Hrat & _); [discriminate|].
      rewrite F in Hf. inversion Hf; subst best'.
      rewrite Hrat. apply compareTwoStrings_bounds. }
    apply (Qlt_not_le _ _ Ht). eapply Qle_trans; eauto. }
  split.
  - destruct (steamIDsBestMatch r) as [|[k v] o] eqn:E; [reflexivity|].
    exfalso.
    assert (I : In k (keys (steamIDsBestMatch r))) by (rewrite E; now left).
    apply (best_result_keys _ _ _ _ k Hr) in I.
    destruct I as (_ & I & _). rewrite Hacc in I. discriminate.
  - rewrite (best_result_noMatch _ _ _ _ Hr).
    apply forallb_filter_id, forallb_forall. intros g _. now rewrite Hacc.
Qed.

Lemma threshold_above_one_matches_nothing_witness :
  exists r,
    findSteamAppIdsBestMatch
      {| onlyFullMatches := None; partialMatchThreshold := Some (3 # 2) |}
      ["portal 2"; "Halo"]%string sample_catalog = Some r /\
    steamIDsBestMatch r = [] /\
    steamIDsNoMatch r = ["portal 2"; "Halo"]%string.
Proof.
  destruct (findSteamAppIdsBestMatch
              {| onlyFullMatches := None; partialMatchThreshold := Some (3 # 2) |}
              ["portal 2"; "Halo"]%string sample_catalog)
    as [r|] eqn:E; [|vm_compute in E; discriminate].
  exists r. split; [reflexivity|].
  apply (threshold_above_one_matches_nothing
           {| onlyFullMatches := None; partialMatchThreshold := Some (3 # 2) |}
           ["portal 2"; "Halo"]%string sample_catalog r); [|exact E].
  vm_compute. reflexivity.
Defined.

(* ================================================================== *)
(** * The enumeration order of an object built from entries *)

Section LayoutFacts.

Context {V : Type}.
Implicit Types (o idx pl : jsobj V) (k : string) (v : V).

Lemma define_create k v o : ~ In k (keys o) -> define k v o = create k v o.
Proof. intros H. unfold define. apply has_false_keys in H. now rewrite H. Qed.

Lemma fold_define_create (l : list (string * V)) : forall o,
  NoDup (keys o ++ keys l) ->
  fold_left (fun o kv => define (fst kv) (snd kv) o) l o =
  fold_left (fun o kv => create (fst kv) (snd kv) o) l o.
Proof.
  induction l as [|[k v] l IH]; intros o ND; simpl; [reflexivity|].
  assert (Hk : ~ In k (keys o)).
  { intros I. apply NoDup_remove_2 in ND. apply ND, in_or_app. now left. }
  rewrite (define_create k v o Hk). apply IH.
  assert (P : Permutation (keys o ++ k :: keys l) (keys (create k v o) ++ keys l)).
  { rewrite <- Permutation_middle.
    change (k :: keys o ++ keys l) with ((k :: keys o) ++ keys l).
    apply Permutation_app_tail. symmetry.
    change (k :: keys o) with (keys ((k, v) :: o)).
    apply Permutation_map, create_perm. }
  apply (Permutation_NoDup P ND).
Qed.

Lemma fold_create_perm (l : list (string * V)) : forall o,
  Permutation (fold_left (fun o kv => create (fst kv) (snd kv) o) l o) (o ++ l).
Proof.
  induction l as [|[k v] l IH]; intros o; simpl.
  - now rewrite app_nil_r.
  - rewrite IH. rewrite (create_perm k v o).
    simpl. apply Permutation_middle.
Qed.

(** The entries under keys that are not array indices are enumerated in
    the order in which the keys were created. *)
Lemma plain_entries_insert_index n k v o :
  is_index k = true ->
  plain_entries (insert_index n k v o) = plain_entries o.
Proof.
  intros Hk. unfold plain_entries.
  induction o as [|[k' v'] o IH]; simpl.
  - now rewrite Hk.
  - destruct (array_index k') as [n'|] eqn:E; simpl.
    + destruct (n' <? n)%N; simpl.
      * now rewrite IH.
      * now rewrite Hk.
    + now rewrite Hk.
Qed.

Lemma plain_entries_create k v o :
  plain_entries (create k v o) =
  if is_index k then plain_entries o else plain_entries o ++ [(k, v)].
Proof.
  unfold create. destruct (array_index k) as [n|] eqn:E.
  - assert (Hk : is_index k = true) by (unfold is_index; now rewrite E).
    rewrite Hk. now apply plain_entries_insert_index.
  - assert (Hk : is_index k = false) by (unfold is_index; now rewrite E).
    rewrite Hk. unfold plain_entries. rewrite filter_app. simpl.
    now rewrite Hk.
Qed.

Lemma plain_entries_fold_create (l : list (string * V)) : forall o,
  plain_entries (fold_left (fun o kv => create (fst kv) (snd kv) o) l o) =
  plain_entries o ++ plain_entries l.
Proof.
  induction l as [|[k v] l IH]; intros o; simpl.
  - now rewrite app_nil_r.
  - rewrite IH, plain_entries_create. simpl.
    unfold plain_entries at 4. simpl.
    destruct (is_index k); simpl; [reflexivity|].
    now rewrite <- app_assoc.
Qed.

Lemma keys_plain_entries_update k v o :
  keys (plain_entries (update k v o)) = keys (plain_entries o).
Proof.
  unfold plain_entries, keys.
  induction o as [|[k' v'] o IH]; simpl; [reflexivity|].
  destruct (String.eqb k k'); simpl.
  - now destruct (is_index k').
  - destruct (is_index k'); simpl; now rewrite IH.
Qed.

Lemma insert_index_app n k v idx pl :
  Forall (fun kv => is_index (fst kv) = true) idx ->
  Forall (fun kv => is_index (fst kv) = false) pl ->
  insert_index n k v (idx ++ pl) = insert_index n k v idx ++ pl.
Proof.
  intros Hi Hp. induction Hi as [|[k' v'] idx Hk' Hi IH]; simpl.
  - destruct pl as [|[k' v'] pl]; [reflexivity|]. simpl.
    inversion Hp as [|? ? Hk' _]; subst. simpl in Hk'.
    unfold is_index in Hk'. destruct (array_index k'); [discriminate|].
    reflexivity.
  - destruct (array_index k') as [n'|]; [|reflexivity].
    destruct (n' <? n)%N; [|reflexivity].
    simpl. now rewrite IH.
Qed.

Lemma insert_index_sorted n k v idx :
  array_index k = Some n ->
  Forall (fun kv => is_index (fst kv) = true) idx ->
  StronglySorted
    (fun x y : string * V => (index_of (fst x) <= index_of (fst y))%N) idx ->
  StronglySorted
    (fun x y : string * V => (index_of (fst x) <= index_of (fst y))%N)
    (insert_index n k v idx).
Proof.
  intros Hk Hi Hs.
  assert (Hn : index_of k = n) by (unfold index_of; now rewrite Hk).
  induction Hs as [|[k' v'] idx Hs IH Hall]; simpl.
  - constructor; constructor.
  - apply Forall_cons_iff in Hi. destruct Hi as [Hk' Hi']. simpl in Hk'.
    assert (Hn' : exists n', array_index k' = Some n' /\ index_of k' = n').
    { unfold is_index in Hk'. unfold index_of.
      destruct (array_index k') as [n'|]; [|discriminate]. now exists n'. }
    destruct Hn' as (n' & E & Hn'). rewrite E.
    destruct (N.ltb_spec n' n) as [Hlt|Hge].
    + constructor; [now apply IH|].
      apply (Permutation_Forall (Permutation_sym (insert_index_perm n k v idx))).
      constructor; [simpl; lia | exact Hall].
    + constructor; [now constructor|].
      constructor; [simpl; lia|].
      eapply Forall_impl; [|exact Hall].
      intros z Hz. simpl in *. lia.
Qed.

Lemma create_layout k v idx pl :
  layout idx pl ->
  exists idx',
    create k v (idx ++ pl) =
      idx' ++ (if is_index k then pl else pl ++ [(k, v)]) /\
    layout idx' (if is_index k then pl else pl ++ [(k, v)]).
Proof.
  intros (Hi & Hp & Hs). unfold create.
  destruct (array_index k) as [n|] eqn:E.
  - assert (Hk : is_index k = true) by (unfold is_index; now rewrite E).
    rewrite Hk. exists (insert_index n k v idx).
    split; [now apply insert_index_app|].
    split; [|split; [exact Hp | now apply insert_index_sorted]].
    apply (Permutation_Forall (Permutation_sym (insert_index_perm n k v idx))).
    now constructor.
  - assert (Hk : is_index k = false) by (unfold is_index; now rewrite E).
    rewrite Hk. exists idx. split; [now rewrite app_assoc|].
    split; [exact Hi|]. split; [|exact Hs].
    apply Forall_app. split; [exact Hp|]. now constructor.
Qed.

Lemma fold_create_layout (l : list (string * V)) : forall idx pl,
  layout idx pl ->
  exists idx' pl',
    fold_left (fun o kv => create (fst kv) (snd kv) o) l (idx ++ pl) =
      idx' ++ pl' /\
    layout idx' pl'.
Proof.
  induction l as [|[k v] l IH]; intros idx pl L; simpl.
  - now exists idx, pl.
  - destruct (create_layout k v idx pl L) as (idx1 & E1 & L1).
    rewrite E1. now apply IH.
Qed.

Lemma layout_index_first idx pl : layout idx pl -> index_first (idx ++ pl).
Proof.
  intros (Hi & Hp & Hs).
  assert (E1 : index_entries (idx ++ pl) = idx).
  { unfold index_entries. rewrite filter_app.
    rewrite (forallb_filter_id _ idx)
      by (apply forallb_forall; intros x Hx;
          now apply (proj1 (Forall_forall _ _) Hi)).
    rewrite (filter_none _ pl)
      by (intros x Hx; now apply (proj1 (Forall_forall _ _) Hp)).
    apply app_nil_r. }
  assert (E2 : plain_entries (idx ++ pl) = pl).
  { unfold plain_entries. rewrite filter_app.
    rewrite (filter_none _ idx)
      by (intros x Hx; rewrite (proj1 (Forall_forall _ _) Hi x Hx);
          reflexivity).
    rewrite (forallb_filter_id _ pl); [reflexivity|].
    apply forallb_forall. intros x Hx.
    now rewrite (proj1 (Forall_forall _ _) Hp x Hx). }
  unfold index_first. rewrite E1, E2. now split.
Qed.

(** An object built from entries with distinct keys enumerates its
    array-index keys first, in ascending order, then the other entries as
    they are listed; it has the entries listed and no other. *)
Lemma fromEntries_layout (l : list (string * V)) :
  NoDup (keys l) ->
  index_first (fromEntries l) /\
  plain_entries (fromEntries l) = plain_entries l /\
  Permutation (fromEntries l) l.
Proof.
  intros ND. unfold fromEntries, empty.
  rewrite fold_define_create by exact ND.
  split; [|split].
  - destruct (fold_create_layout l [] []) as (idx & pl & E & L).
    + repeat split; constructor.
    + simpl in E. rewrite E. now apply layout_index_first.
  - now rewrite plain_entries_fold_create.
  - apply (fold_create_perm l []).
Qed.

End LayoutFacts.

Lemma keys_plain_entries_define {V : Type} (k : string) (v : V) (o : jsobj V) :
  keys (plain_entries (define k v o)) =
  if is_index k then keys (plain_entries o)
  else if in_dec string_dec k (keys o) then keys (plain_entries o)
       else keys (plain_entries o) ++ [k].
Proof.
  unfold define. destruct (has k o) eqn:H.
  - rewrite keys_plain_entries_update. apply has_true_keys in H.
    destruct (is_index k); [reflexivity|].
    destruct (in_dec string_dec k (keys o)); [reflexivity | contradiction].
  - rewrite plain_entries_create. apply has_false_keys in H.
    destruct (is_index k); [reflexivity|].
    destruct (in_dec string_dec k (keys o)); [contradiction|].
    unfold keys. now rewrite map_app.
Qed.

Lemma keys_plain_entries_set {V : Type} (k : string) (v : V) (o : jsobj V) :
  keys (plain_entries (set k v o)) =
  if ordinary k
  then (if is_index k then keys (plain_entries o)
        else if in_dec string_dec k (keys o) then keys (plain_entries o)
             else keys (plain_entries o) ++ [k])
  else keys (plain_entries o).
Proof.
  unfold set. destruct (ordinary k); [|reflexivity].
  apply keys_plain_entries_define.
Qed.

Lemma in_keys_plain {V : Type} (k : string) (o : jsobj V) :
  is_index k = false ->
  In k (keys o) <-> In k (keys (plain_entries o)).
Proof.
  intros Hk. unfold keys, plain_entries. rewrite !in_map_iff. split.
  - intros ([k' v] & E & I). simpl in E. subst k'.
    exists (k, v). split; [reflexivity|].
    apply filter_In. split; [exact I|]. simpl. now rewrite Hk.
  - intros (kv & E & I). apply filter_In in I. exists kv. tauto.
Qed.

Lemma StronglySorted_filter {A : Type} (R : A -> A -> Prop) (p : A -> bool)
      (l : list A) :
  StronglySorted R l -> StronglySorted R (filter p l).
Proof.
  induction 1 as [|x l Hs IH Hall]; simpl; [constructor|].
  destruct (p x); [|exact IH].
  constructor; [exact IH|].
  apply Forall_forall. intros y Hy. apply filter_In in Hy.
  apply (proj1 (Forall_forall _ _) Hall). tauto.
Qed.

Lemma filter_swap {A : Type} (p q : A -> bool) (l : list A) :
  filter p (filter q l) = filter q (filter p l).
Proof.
  induction l as [|x l IH]; simpl; [reflexivity|].
  destruct (q x) eqn:Q; destruct (p x) eqn:P; simpl;
    rewrite ?Q, ?P, IH; reflexivity.
Qed.

(** Whatever the names are, the keys of the mapping built by the loop that
    are not array indices are the accepted names of this kind other than
    [__proto__], in the order in which they were first processed. *)
Lemma after_best_plain_keys {RT : Runtime} t gameNames steamApps l : forall e,
  bestMatch_after t gameNames steamApps l = Some e ->
  keys (plain_entries (bm_best e)) =
  firstOccurrences (filter (recorded_plain t steamApps) l).
Proof.
  induction l as [|game l IH] using rev_ind; intros e H.
  - inversion H; subst; reflexivity.
  - rewrite bestMatch_after_snoc in H.
    destruct (bestMatch_after t gameNames steamApps l) as [e0|] eqn:E0;
      [|discriminate].
    destruct (bestMatch_after_frame _ _ _ _ _ E0) as [F1 F2].
    specialize (IH e0 eq_refl).
    simpl in H. unfold bestMatch_at in H. rewrite F2, F1 in H.
    clear F1 F2.
    rewrite filter_app. simpl. unfold recorded_plain at 2.
    unfold accepted, bestRating.
    destruct (findBestMatch (toLowerCase game) (lowercaseNames steamApps))
      as [best|]; [|discriminate].
    destruct (Qle_bool t (rating (bestMatch best))).
    + destruct (nth_error steamApps (bestMatchIndex best)); [|discriminate].
      inversion H; subst; simpl.
      rewrite keys_plain_entries_set.
      destruct (ordinary game); simpl;
        [|rewrite andb_false_r, app_nil_r; exact IH].
      rewrite andb_true_r.
      destruct (is_index game) eqn:Hi; simpl.
      * rewrite app_nil_r. exact IH.
      * rewrite firstOccurrences_snoc, <- IH.
        destruct (in_dec string_dec game (keys (bm_best e0))) as [I|N];
          destruct (in_dec string_dec game
                      (filter (recorded_plain t steamApps) l)) as [I'|N'];
          try reflexivity.
        -- exfalso. apply N'. apply in_firstOccurrences. rewrite <- IH.
           apply (proj1 (in_keys_plain _ _ Hi)). exact I.
        -- exfalso. apply N. apply (proj2 (in_keys_plain _ _ Hi)). rewrite IH.
           apply in_firstOccurrences. exact I'.
    + inversion H; subst; simpl. rewrite app_nil_r. exact IH.
Qed.

(** X7: the order in which the similarity-match mapping is enumerated,
    whatever the names are.  The names that are array indices (decimal
    numerals of integers) come first, in ascending numeric order; the
    other names follow in descending order of similarity, names of equal
    similarity in the order in which they were first processed.  The
    mapping has the entries that the loop has recorded, and no other; of
    the names that are not array indices the loop has recorded the
    accepted ones other than [__proto__]. *)
Theorem best_match_enumeration {RT : Runtime}
        (CONFIG : Config) (gameNames : list string) (steamApps : list SteamApp)
        (r : BestMatchResult) :
  findSteamAppIdsBestMatch CONFIG gameNames steamApps = Some r ->
  index_first (steamIDsBestMatch r) /\
  descending (plain_entries (steamIDsBestMatch r)) /\
  exists e,
    bestMatch_run CONFIG gameNames steamApps = Some e /\
    Permutation (steamIDsBestMatch r) (bm_best e) /\
    keys (plain_entries (bm_best e)) =
      firstOccurrences
        (filter (recorded_plain (threshold_of CONFIG) steamApps) gameNames) /\
    forall s,
      filter (same_score s) (plain_entries (steamIDsBestMatch r)) =
      filter (same_score s) (plain_entries (bm_best e)).
Proof.
  intros Hr.
  rewrite findSteamAppIdsBestMatch_after in Hr.
  destruct (bestMatch_after (threshold_of CONFIG) gameNames steamApps gameNames)
    as [e|] eqn:He; [|discriminate].
  inversion Hr; subst r; clear Hr. cbn [steamIDsBestMatch]. unfold entries.
  pose proof (after_best_NoDup _ _ _ _ _ He) as Hnd.
  pose proof (sort_perm by_similarity (bm_best e)) as P.
  assert (Hnd' : NoDup (keys (sort by_similarity (bm_best e)))).
  { apply (Permutation_NoDup (Permutation_map fst (Permutation_sym P)) Hnd). }
  destruct (fromEntries_layout _ Hnd') as (L1 & L2 & L3).
  split; [exact L1|]. rewrite L2. split.
  - apply StronglySorted_filter, sort_by_similarity_descending.
  - exists e. split; [now rewrite bestMatch_run_after|].
    split; [now rewrite L3|].
    split; [apply (after_best_plain_keys _ _ _ _ _ He)|].
    intros s. unfold plain_entries.
    rewrite filter_swap, sort_by_similarity_stable. apply filter_swap.
Qed.

Lemma best_match_enumeration_witness :
  exists r,
    findSteamAppIdsBestMatch no_threshold
      ["portal"; "1942"; "__proto__"; "7"]%string numeric_catalog = Some r /\
    keys (index_entries (steamIDsBestMatch r)) = ["7"; "1942"]%string /\
    keys (plain_entries (steamIDsBestMatch r)) = ["portal"]%string /\
    index_first (steamIDsBestMatch r).
Proof.
  destruct (findSteamAppIdsBestMatch no_threshold
              ["portal"; "1942"; "__proto__"; "7"]%string numeric_catalog)
    as [r|] eqn:E; [|vm_compute in E; discriminate].
  exists r. split; [reflexivity|].
  destruct (best_match_enumeration _ _ _ r E) as (L & _).
  vm_compute in E. inversion E; subst r.
  split; [reflexivity|]. split; [reflexivity | exact L].
Defined.

(* ================================================================== *)
(** * The pipeline as a whole *)

Lemma nonempty_existsb {A : Type} (p : A -> bool) (l : list A) :
  (0 <? List.length (filter p l)) = existsb p l.
Proof.
  induction l as [|x l IH]; simpl; [reflexivity|].
  destruct (p x); simpl; [reflexivity | exact IH].
Qed.

Lemma existsb_filter {A : Type} (p q : A -> bool) (l : list A) :
  existsb p (filter q l) = existsb (fun x => q x && p x) l.
Proof.
  induction l as [|x l IH]; simpl; [reflexivity|].
  destruct (q x); simpl; now rewrite IH.
Qed.

Lemma nonempty_keys_existsb {V : Type} (o : jsobj V) (p : string -> bool)
      (l : list string) :
  (forall g, In g (keys o) <-> In g l /\ p g = true) ->
  (0 <? List.length (keys o)) = existsb p l.
Proof.
  intros H. destruct (existsb p l) eqn:E.
  - apply existsb_exists in E. destruct E as (g & I & P).
    assert (K : In g (keys o)) by (apply H; now split).
    destruct (keys o); [destruct K | reflexivity].
  - destruct (keys o) as [|k ks] eqn:K; [reflexivity|]. exfalso.
    assert (I : In k (k :: ks)) by now left.
    apply H in I. destruct I as [I P].
    assert (T : existsb p l = true) by (apply existsb_exists; now exists k).
    congruence.
Qed.

Lemma in_single_keys gameNames steamApps g :
  In g (keys (steamIDsSingleFullMatch
                (findSteamAppIdsFullMatch gameNames steamApps))) <->
  In g gameNames /\ ((exactCount g steamApps =? 1) && ordinary g) = true.
Proof.
  rewrite (count_occ_In string_dec), single_count.
  rewrite (count_occ_In string_dec gameNames g).
  destruct ((exactCount g steamApps =? 1) && ordinary g); split; intros H;
    try lia; try (split; [lia | reflexivity]); try (destruct H; lia);
    destruct H; discriminate.
Qed.

Lemma in_multiple_keys gameNames steamApps g :
  In g (keys (steamIDsMultipleFullMatches
                (findSteamAppIdsFullMatch gameNames steamApps))) <->
  In g gameNames /\ ((1 <? exactCount g steamApps) && ordinary g) = true.
Proof.
  rewrite (count_occ_In string_dec), multiple_count.
  rewrite (count_occ_In string_dec gameNames g).
  destruct ((1 <? exactCount g steamApps) && ordinary g); split; intros H;
    try lia; try (split; [lia | reflexivity]); try (destruct H; lia);
    destruct H; discriminate.
Qed.

(** X8: which files a run hands to [fs.writeFileSync].  When
    [onlyFullMatches] is not set and the catalog is not empty, the
    similarity pass is given the names without an exact match and returns,
    and the files are, in this order: the unique-match file if some name
    other than [__proto__] has exactly one exact match; the
    ambiguous-match file if some name other than [__proto__] has more than
    one; the similarity-match file in every case, also with an empty
    mapping; the no-match file if some name without an exact match has a
    best rating below the threshold. *)
Theorem main_written_files {RT : Runtime}
        (CONFIG : Config) (steamApps : list SteamApp) (gameNames : list string) :
  truthy (onlyFullMatches CONFIG) = false ->
  steamApps <> [] ->
  exists b,
    findSteamAppIdsBestMatch CONFIG (filter (unmatched steamApps) gameNames)
                             steamApps = Some b /\
    bestMatchCall (main CONFIG steamApps gameNames) =
      Some (filter (unmatched steamApps) gameNames) /\
    written (main CONFIG steamApps gameNames) =
      (if existsb (fun g => (exactCount g steamApps =? 1) && ordinary g)
                  gameNames
       then [("./output/steamAppIds_fullMatches.json"%string,
              SingleFullMatches
                (steamIDsSingleFullMatch
                   (findSteamAppIdsFullMatch gameNames steamApps)))]
       else []) ++
      (if existsb (fun g => (1 <? exactCount g steamApps) && ordinary g)
                  gameNames
       then [("./output/steamAppIds_multipleFullMatches.json"%string,
              MultipleFullMatches
                (steamIDsMultipleFullMatches
                   (findSteamAppIdsFullMatch gameNames steamApps)))]
       else []) ++
      [("./output/steamAppIds_bestMatch.json"%string,
        BestMatches (steamIDsBestMatch b))] ++
      (if existsb (fun g => unmatched steamApps g &&
                            negb (accepted (threshold_of CONFIG) steamApps g))
                  gameNames
       then [("./output/steamAppIds_noMatch.json"%string,
              NoMatches (steamIDsNoMatch b))]
       else []).
Proof.
  intros Hflag Hne.
  destruct (best_pass_total CONFIG (filter (unmatched steamApps) gameNames)
                            steamApps Hne) as [b Hb].
  exists b. split; [exact Hb|].
  unfold main. rewrite Hflag. simpl negb. cbv iota.
  rewrite remaining_filter.
  change (fun g : string => exactCount g steamApps =? 0)
    with (unmatched steamApps).
  rewrite Hb. cbn [completed bestMatchCall written].
  split; [reflexivity|].
  rewrite (nonempty_keys_existsb _
             (fun g => (exactCount g steamApps =? 1) && ordinary g)
             gameNames (in_single_keys gameNames steamApps)).
  rewrite (nonempty_keys_existsb _
             (fun g => (1 <? exactCount g steamApps) && ordinary g)
             gameNames (in_multiple_keys gameNames steamApps)).
  rewrite (best_result_noMatch _ _ _ _ Hb), nonempty_existsb, existsb_filter.
  reflexivity.
Qed.

Lemma main_written_files_witness :
  map fst (written (main sample_config sample_catalog
                         ["Portal"; "portal 2"; "Halo"]%string)) =
  [ "./output/steamAppIds_fullMatches.json";
    "./output/steamAppIds_bestMatch.json";
    "./output/steamAppIds_noMatch.json" ]%string /\
  map fst (written (main sample_config proto_single_catalog
                         ["__proto__"; "Halo"]%string)) =
  [ "./output/steamAppIds_bestMatch.json";
    "./output/steamAppIds_noMatch.json" ]%string.
Proof.
  split.
  - destruct (main_written_files sample_config sample_catalog
                ["Portal"; "portal 2"; "Halo"]%string)
      as (b & _ & _ & W).
    + reflexivity.
    + discriminate.
    + rewrite W. vm_compute. reflexivity.
  - destruct (main_written_files sample_config proto_single_catalog
                ["__proto__"; "Halo"]%string)
      as (b & _ & _ & W).
    + reflexivity.
    + discriminate.
    + rewrite W. vm_compute. reflexivity.
Defined.

(** X9: where a name ends up.  When [onlyFullMatches] is not set and the
    catalog is not empty, the four groupings of a run hold input names and
    nothing else, and a name is in at most one of them: a name other than
    [__proto__] is in the unique-match grouping with exactly one exact
    match, in the ambiguous-match grouping with more than one, and with
    none in the similarity-match mapping when its best rating reaches the
    threshold; a name without an exact match whose best rating is below
    the threshold is in the no-match list.  A name with an exact match is
    never rated, and the name [__proto__] is in none of the three
    name-keyed groupings. *)
Theorem every_name_in_one_group {RT : Runtime}
        (CONFIG : Config) (steamApps : list SteamApp) (gameNames : list string)
        (b : BestMatchResult) (g : string) :
  findSteamAppIdsBestMatch
    CONFIG
    (remainingGameNames (findSteamAppIdsFullMatch gameNames steamApps))
    steamApps = Some b ->
  (In g (keys (steamIDsSingleFullMatch
                 (findSteamAppIdsFullMatch gameNames steamApps))) <->
   In g gameNames /\ exactCount g steamApps = 1 /\ g <> "__proto__"%string) /\
  (In g (keys (steamIDsMultipleFullMatches
                 (findSteamAppIdsFullMatch gameNames steamApps))) <->
   In g gameNames /\ 2 <= exactCount g steamApps /\ g <> "__proto__"%string) /\
  (In g (keys (steamIDsBestMatch b)) <->
   In g gameNames /\ exactCount g steamApps = 0 /\
   accepted (threshold_of CONFIG) steamApps g = true /\
   g <> "__proto__"%string) /\
  (In g (steamIDsNoMatch b) <->
   In g gameNames /\ exactCount g steamApps = 0 /\
   accepted (threshold_of CONFIG) steamApps g = false).
Proof.
  intros Hb.
  pose proof (best_result_keys _ _ _ _ g Hb) as K.
  pose proof (best_result_in_noMatch _ _ _ _ g Hb) as N.
  pose proof (ordinary_true g) as O.
  split; [|split; [|split]].
  - rewrite in_single_keys, andb_true_iff, Nat.eqb_eq. tauto.
  - rewrite in_multiple_keys, andb_true_iff, Nat.ltb_lt. tauto.
  - rewrite K, remaining_filter, filter_In, Nat.eqb_eq. tauto.
  - rewrite N, remaining_filter, filter_In, Nat.eqb_eq. tauto.
Qed.

Lemma every_name_in_one_group_witness :
  exists b,
    findSteamAppIdsBestMatch
      sample_config
      (remainingGameNames
         (findSteamAppIdsFullMatch ["Portal"; "portal 2"; "Halo"]%string
                                   sample_catalog))
      sample_catalog = Some b /\
    In "Halo"%string (steamIDsNoMatch b) /\
    ~ In "Portal"%string (keys (steamIDsBestMatch b)).
Proof.
  destruct (findSteamAppIdsBestMatch
              sample_config
              (remainingGameNames
                 (findSteamAppIdsFullMatch
                    ["Portal"; "portal 2"; "Halo"]%string sample_catalog))
              sample_catalog) as [b|] eqn:E;
    [|vm_compute in E; discriminate].
  exists b. split; [reflexivity|]. split.
  - destruct (every_name_in_one_group
                sample_config sample_catalog
                ["Portal"; "portal 2"; "Halo"]%string b "Halo" E)
      as (_ & _ & _ & N).
    apply N. split; [simpl; tauto|]. split; vm_compute; reflexivity.
  - destruct (every_name_in_one_group
                sample_config sample_catalog
                ["Portal"; "portal 2"; "Halo"]%string b "Portal" E)
      as (_ & _ & K & _).
    intros I. apply K in I. destruct I as (_ & Z & _).
    vm_compute in Z. discriminate.
Defined.

(** X10: when the similarity pass throws.  Given a catalog and a list of
    names, [findSteamAppIdsBestMatch] is left by an exception if and only
    if the catalog is empty and there is at least one name: the first
    iteration of its loop then asks for the best match among no targets.
    Without a name the loop body is not run, and the pass returns an empty
    mapping and an empty no-match list, also over an empty catalog. *)
Theorem best_match_pass_throws_iff {RT : Runtime}
        (CONFIG : Config) (gameNames : list string) (steamApps : list SteamApp) :
  (findSteamAppIdsBestMatch CONFIG gameNames steamApps = None <->
   steamApps = [] /\ gameNames <> []) /\
  findSteamAppIdsBestMatch CONFIG [] steamApps =
    Some {| steamIDsBestMatch := empty; steamIDsNoMatch := [] |}.
Proof.
  split; [|reflexivity].
  destruct steamApps as [|a l].
  - destruct gameNames as [|g gs].
    + split; [discriminate | intros (_ & H); congruence].
    + split; [intros _; split; [reflexivity | discriminate]|]. intros _.
      now apply best_pass_empty_catalog.
  - split; [|intros (H & _); discriminate].
    destruct (best_pass_total CONFIG gameNames (a :: l)) as [b Hb];
      [discriminate|].
    rewrite Hb. discriminate.
Qed.

(* ================================================================== *)
(** * Reading the names *)

Lemma append_nil_r (s : string) : (s ++ "")%string = s.
Proof. induction s as [|c s IH]; simpl; [reflexivity | now rewrite IH]. Qed.

Lemma append_assoc (a b c : string) :
  ((a ++ b) ++ c)%string = (a ++ (b ++ c))%string.
Proof. induction a as [|x a IH]; simpl; [reflexivity | now rewrite IH]. Qed.

Lemma prefix_append (sep s : string) :
  String.prefix sep s = true -> exists rest, s = (sep ++ rest)%string.
Proof.
  revert s. induction sep as [|a sep IH]; intros s H.
  - exists s. reflexivity.
  - destruct s as [|b s]; simpl in H; [discriminate|].
    destruct (ascii_dec a b) as [->|]; [|discriminate].
    destruct (IH s H) as [rest ->]. now exists rest.
Qed.

(** The characters of a separator found are passed over. *)
Lemma split_scan_skip (sep t : string) : forall s piece,
  split_scan sep (String.length t) (t ++ s) piece = split_scan sep 0 s piece.
Proof.
  induction t as [|c t IH]; intros s piece.
  - reflexivity.
  - cbn [String.length append split_scan]. apply IH.
Qed.

Lemma split_scan_nonempty (sep : string) (s : string) : forall skip piece,
  split_scan sep skip s piece <> [].
Proof.
  induction s as [|c s IH]; intros skip piece; cbn [split_scan];
    [discriminate|].
  destruct skip; [|apply IH].
  destruct (String.prefix sep (String c s)); [discriminate | apply IH].
Qed.

Lemma concat_cons (sep x : string) (xs : list string) :
  xs <> [] ->
  String.concat sep (x :: xs) = (x ++ sep ++ String.concat sep xs)%string.
Proof. destruct xs; [congruence | reflexivity]. Qed.

Lemma split_scan_concat (sep : string) (n : nat) : forall s piece,
  sep <> EmptyString ->
  String.length s <= n ->
  String.concat sep (split_scan sep 0 s piece) = (piece ++ s)%string.
Proof.
  induction n as [|n IH]; intros s piece Hsep Hlen.
  - destruct s; [|simpl in Hlen; lia]. simpl. now rewrite append_nil_r.
  - destruct s as [|c s']; [simpl; now rewrite append_nil_r|].
    cbn [split_scan].
    destruct (String.prefix sep (String c s')) eqn:P.
    + destruct (prefix_append _ _ P) as [rest E].
      destruct sep as [|a sep']; [congruence|].
      simpl in E. inversion E; subst a s'.
      replace (String.length (String c sep') - 1) with (String.length sep')
        by (simpl; lia).
      rewrite split_scan_skip.
      rewrite concat_cons by apply split_scan_nonempty.
      rewrite IH; [reflexivity | exact Hsep|].
      simpl in Hlen.
      assert (L : forall a b, String.length (a ++ b) =
                              String.length a + String.length b).
      { intros a b. induction a; simpl; auto. }
      rewrite L in Hlen. lia.
    + rewrite IH; [|exact Hsep | simpl in Hlen; lia].
      now rewrite append_assoc.
Qed.

(** Joining the pieces with the separator gives the string back. *)
Lemma split_concat (sep s : string) :
  sep <> EmptyString -> String.concat sep (split sep s) = s.
Proof.
  intros Hsep. unfold split. destruct sep as [|a sep']; [congruence|].
  apply (split_scan_concat _ (String.length s)); [exact Hsep | lia].
Qed.

Lemma split_nonempty (sep s : string) :
  sep <> EmptyString -> split sep s <> [].
Proof.
  intros Hsep. unfold split. destruct sep; [congruence|].
  apply split_scan_nonempty.
Qed.

Lemma importGameNames_returned inputFile readFileSync names :
  importGameNames inputFile readFileSync = Returned names ->
  (fileType inputFile = "csv"%string \/ fileType inputFile = "txt"%string) /\
  exists content,
    readFileSync (inputPath inputFile) = Some content /\
    names = split (delimiter inputFile) content.
Proof.
  unfold importGameNames. simpl existsb.
  destruct (String.eqb_spec (fileType inputFile) "csv") as [E1|N1];
    destruct (String.eqb_spec (fileType inputFile) "txt") as [E2|N2];
    simpl; try discriminate;
    (destruct (readFileSync (inputPath inputFile)) as [content|];
     [|discriminate]);
    intros H; inversion H; subst names;
    (split; [tauto | now exists content]).
Qed.

(** X11: the names that [importGameNames] returns are the text of the input
    file: with a non-empty delimiter there is at least one name, also for
    an empty file, and the names joined by the delimiter are the text of
    the file at the path made of the file name and the file type, which is
    one of the two supported types. *)
Theorem importGameNames_round_trip
        (inputFile : InputFile) (readFileSync : string -> option string)
        (names : list string) :
  delimiter inputFile <> EmptyString ->
  importGameNames inputFile readFileSync = Returned names ->
  names <> [] /\
  (fileType inputFile = "csv"%string \/ fileType inputFile = "txt"%string) /\
  readFileSync (inputPath inputFile) =
    Some (String.concat (delimiter inputFile) names).
Proof.
  intros Hd H.
  destruct (importGameNames_returned _ _ _ H) as (Ht & content & Hc & ->).
  split; [now apply split_nonempty|]. split; [exact Ht|].
  now rewrite split_concat.
Qed.

Lemma importGameNames_round_trip_witness :
  importGameNames
    {| fileName := "gameNames"; fileType := "txt"; delimiter := "," |}
    (fun path => if String.eqb path "gameNames.txt"
                 then Some "Portal,,Halo,"%string else None) =
    Returned ["Portal"; ""; "Halo"; ""]%string /\
  (if String.eqb
        (inputPath
           {| fileName := "gameNames"; fileType := "txt"; delimiter := "," |})
        "gameNames.txt"
   then Some "Portal,,Halo,"%string else None) =
  Some (String.concat "," ["Portal"; ""; "Halo"; ""]%string).
Proof.
  split; [reflexivity|].
  destruct (importGameNames_round_trip
              {| fileName := "gameNames"; fileType := "txt"; delimiter := "," |}
              (fun path => if String.eqb path "gameNames.txt"
                           then Some "Portal,,Halo,"%string else None)
              ["Portal"; ""; "Halo"; ""]%string) as (_ & _ & R).
  - discriminate.
  - reflexivity.
  - exact R.
Defined.

(** X12: how a run ends before any matching.  [importGameNames] ends the
    process, with the exit code 1, if and only if the file type is neither
    "csv" nor "txt" or the file cannot be read; an unsupported type ends
    it whatever the file holds.  In every other case the names read are
    handed to the matching as they are. *)
Theorem main_from_file_exit {RT : Runtime}
        (CONFIG : Config) (inputFile : InputFile)
        (readFileSync : string -> option string) (steamApps : list SteamApp) :
  (main_from_file CONFIG inputFile readFileSync steamApps = Exited 1 <->
   (fileType inputFile <> "csv"%string /\ fileType inputFile <> "txt"%string) \/
   readFileSync (inputPath inputFile) = None) /\
  (forall code,
     main_from_file CONFIG inputFile readFileSync steamApps = Exited code ->
     code = 1%Z) /\
  (forall content,
     (fileType inputFile = "csv"%string \/ fileType inputFile = "txt"%string) ->
     readFileSync (inputPath inputFile) = Some content ->
     main_from_file CONFIG inputFile readFileSync steamApps =
     Returned (main CONFIG steamApps (split (delimiter inputFile) content))).
Proof.
  unfold main_from_file, importGameNames. simpl existsb.
  destruct (String.eqb_spec (fileType inputFile) "csv") as [E1|N1];
    destruct (String.eqb_spec (fileType inputFile) "txt") as [E2|N2];
    simpl;
    destruct (readFileSync (inputPath inputFile)) as [content|];
    (split; [split; [intros H; try discriminate; tauto
                    | intros [[H1 H2]|H]; try reflexivity; try discriminate;
                      congruence]
            | split; [intros code H; inversion H; reflexivity
                     | intros c [T|T] R; try congruence;
                       inversion R; reflexivity]]).
Qed.

Lemma main_from_file_exit_witness :
  main_from_file sample_config
    {| fileName := "gameNames"; fileType := "csv"; delimiter := "," |}
    (fun path => if String.eqb path "gameNames.csv"
                 then Some "Portal,Halo"%string else None)
    sample_catalog =
  Returned (main sample_config sample_catalog ["Portal"; "Halo"]%string).
Proof.
  destruct (main_from_file_exit sample_config
              {| fileName := "gameNames"; fileType := "csv"; delimiter := "," |}
              (fun path => if String.eqb path "gameNames.csv"
                           then Some "Portal,Halo"%string else None)
              sample_catalog) as (_ & _ & R).
  apply (R "Portal,Halo"%string); [left|]; reflexivity.
Defined.

Lemma prefix_nil (s : string) : String.prefix EmptyString s = true.
Proof. now destruct s. Qed.

Lemma occurrences_append (c : ascii) (a b : string) :
  occurrences c (a ++ b) = occurrences c a + occurrences c b.
Proof.
  unfold occurrences. induction a as [|x a IH]; simpl; [reflexivity|].
  destruct (ascii_dec x c); simpl; now rewrite IH.
Qed.

Lemma split_scan_character (c : ascii) (s : string) : forall piece,
  occurrences c piece = 0 ->
  List.length (split_scan (String c EmptyString) 0 s piece) =
    S (occurrences c s) /\
  Forall (fun name => occurrences c name = 0)
         (split_scan (String c EmptyString) 0 s piece).
Proof.
  induction s as [|d s IH]; intros piece Hp.
  - simpl. split; [reflexivity|]. now constructor.
  - cbn [split_scan String.prefix String.length Nat.sub].
    unfold occurrences at 1. cbn [list_ascii_of_string count_occ].
    fold (occurrences c s).
    destruct (ascii_dec c d) as [->|Hne].
    + rewrite prefix_nil.
      destruct (ascii_dec d d) as [_|N]; [|congruence].
      destruct (IH EmptyString eq_refl) as [L F].
      split; [simpl; now rewrite L | now constructor].
    + destruct (ascii_dec d c) as [E|_]; [symmetry in E; contradiction|].
      apply IH. rewrite occurrences_append, Hp. unfold occurrences. simpl.
      destruct (ascii_dec d c) as [E|_]; [symmetry in E; contradiction|].
      reflexivity.
Qed.

(** X13: with a delimiter of one character, the usual case of a comma or a
    line feed, [importGameNames] returns one name more than the file has
    delimiters, so that a delimiter at the end of the file gives an empty
    last name, and no name holds the delimiter. *)
Theorem importGameNames_character_delimiter
        (inputFile : InputFile) (readFileSync : string -> option string)
        (c : ascii) (content : string) (names : list string) :
  delimiter inputFile = String c EmptyString ->
  readFileSync (inputPath inputFile) = Some content ->
  importGameNames inputFile readFileSync = Returned names ->
  List.length names = S (occurrences c content) /\
  Forall (fun name => occurrences c name = 0) names /\
  (forall body, content = (body ++ String c EmptyString)%string ->
     last names "x"%string = EmptyString).
Proof.
  intros Hd Hc H.
  destruct (importGameNames_returned _ _ _ H) as (_ & content' & Hc' & ->).
  rewrite Hc in Hc'. inversion Hc'; subst content'. rewrite Hd.
  unfold split.
  destruct (split_scan_character c content EmptyString eq_refl) as [L F].
  split; [exact L|]. split; [exact F|].
  intros body ->. clear.
  assert (G : forall piece,
             last (split_scan (String c EmptyString) 0
                              (body ++ String c EmptyString) piece)
                  "x"%string = EmptyString).
  { induction body as [|d body IH]; intros piece.
    - cbn [append split_scan String.prefix String.length Nat.sub].
      destruct (ascii_dec c c) as [_|N]; [reflexivity | congruence].
    - cbn [append split_scan String.prefix String.length Nat.sub].
      destruct (ascii_dec c d) as [->|Hne].
      + rewrite prefix_nil. specialize (IH EmptyString).
        destruct (split_scan (String d "") 0 (body ++ String d "") "")
          eqn:E; [now apply split_scan_nonempty in E | exact IH].
      + apply IH. }
  apply G.
Qed.

Lemma importGameNames_character_delimiter_witness :
  List.length ["Portal"; "Halo"; ""]%string =
    S (occurrences ","%char "Portal,Halo,") /\
  last ["Portal"; "Halo"; ""]%string "x"%string = EmptyString.
Proof.
  destruct (importGameNames_character_delimiter
              {| fileName := "gameNames"; fileType := "txt"; delimiter := "," |}
              (fun path => if String.eqb path "gameNames.txt"
                           then Some "Portal,Halo,"%string else None)
              ","%char "Portal,Halo,"%string ["Portal"; "Halo"; ""]%string
              eq_refl eq_refl eq_refl)
    as (L & _ & E).
  split; [exact L|]. apply (E "Portal,Halo"%string). reflexivity.
Defined.

(** X14: with the empty delimiter the names that [importGameNames] returns
    are the characters of the file, one name for each character, in order;
    an empty file gives no name at all. *)
Theorem importGameNames_empty_delimiter
        (inputFile : InputFile) (readFileSync : string -> option string)
        (content : string) (names : list string) :
  delimiter inputFile = EmptyString ->
  readFileSync (inputPath inputFile) = Some content ->
  importGameNames inputFile readFileSync = Returned names ->
  List.length names = String.length content /\
  Forall (fun name => String.length name = 1) names /\
  String.concat EmptyString names = content.
Proof.
  intros Hd Hc H.
  destruct (importGameNames_returned _ _ _ H) as (_ & content' & Hc' & ->).
  rewrite Hc in Hc'. inversion Hc'; subst content'. rewrite Hd. clear.
  unfold split. induction content as [|c s (L & F & C)].
  - simpl. repeat split. constructor.
  - cbn [split_chars List.length String.length]. split; [now rewrite L|].
    split; [now constructor|].
    destruct (split_chars s) as [|x xs] eqn:E.
    + simpl in *. now rewrite <- C.
    + rewrite concat_cons by discriminate. rewrite C. reflexivity.
Qed.

Lemma importGameNames_empty_delimiter_witness :
  List.length ["a"; "b"]%string = String.length "ab" /\
  String.concat EmptyString ["a"; "b"]%string = "ab"%string.
Proof.
  destruct (importGameNames_empty_delimiter
              {| fileName := "gameNames"; fileType := "txt"; delimiter := "" |}
              (fun path => if String.eqb path "gameNames.txt"
                           then Some "ab"%string else None)
              "ab"%string ["a"; "b"]%string eq_refl eq_refl eq_refl)
    as (L & _ & C).
  split; [exact L | exact C].
Defined.

(* ================================================================== *)
(** * The summary that the exact-match pass logs *)

Lemma length_keys_nodup (ks l : list string) (p : string -> bool) :
  NoDup ks ->
  (forall g, In g ks <-> In g l /\ p g = true) ->
  List.length ks = List.length (nodup string_dec (filter p l)).
Proof.
  intros ND H. apply Permutation_length.
  apply NoDup_Permutation; [exact ND | apply NoDup_nodup|].
  intros g. rewrite nodup_In, filter_In. apply H.
Qed.

Lemma single_keys_NoDup gameNames steamApps :
  NoDup (keys (steamIDsSingleFullMatch
                 (findSteamAppIdsFullMatch gameNames steamApps))).
Proof.
  unfold findSteamAppIdsFullMatch. cbn [steamIDsSingleFullMatch].
  rewrite fullMatch_run_after. apply after_single_NoDup.
Qed.

Lemma multiple_keys_NoDup gameNames steamApps :
  NoDup (keys (steamIDsMultipleFullMatches
                 (findSteamAppIdsFullMatch gameNames steamApps))).
Proof.
  unfold findSteamAppIdsFullMatch. cbn [steamIDsMultipleFullMatches].
  rewrite fullMatch_run_after. apply after_multiple_NoDup.
Qed.

(** X15: the summary line of the exact-match pass.  The number of games
    it reports is the number of distinct input names, other than
    [__proto__], with at least one exact match, a repeated name counted
    once; the names with more than one match are mentioned only when there
    are at least two of them, so that a single ambiguous name goes
    unmentioned. *)
Theorem fullMatch_log_counts
        (gameNames : list string) (steamApps : list SteamApp) :
  fullMatch_log (findSteamAppIdsFullMatch gameNames steamApps) =
  ("Found full matches for " ++
   decimal (distinctMatched steamApps gameNames) ++ " games" ++
   ambiguous_note (distinctAmbiguous steamApps gameNames) ++
   String "010"%char EmptyString)%string /\
  (distinctAmbiguous steamApps gameNames <= 1 ->
   ambiguous_note (distinctAmbiguous steamApps gameNames) = "."%string).
Proof.
  unfold fullMatch_log, distinctMatched, distinctAmbiguous.
  set (r := findSteamAppIdsFullMatch gameNames steamApps).
  assert (Hm : List.length (keys (steamIDsMultipleFullMatches r)) =
               List.length
                 (nodup string_dec
                    (filter (fun g => (1 <? exactCount g steamApps) &&
                                      ordinary g) gameNames))).
  { apply length_keys_nodup; [apply multiple_keys_NoDup|].
    intros g. apply in_multiple_keys. }
  assert (Hs : List.length (keys (steamIDsSingleFullMatch r)) +
               List.length (keys (steamIDsMultipleFullMatches r)) =
               List.length
                 (nodup string_dec
                    (filter (fun g => matched steamApps g && ordinary g)
                            gameNames))).
  { rewrite <- length_app. apply length_keys_nodup.
    - apply NoDup_app; [apply single_keys_NoDup | apply multiple_keys_NoDup|].
      intros g I1 I2. apply in_single_keys in I1. apply in_multiple_keys in I2.
      destruct I1 as [_ I1], I2 as [_ I2].
      apply andb_true_iff in I1, I2. destruct I1 as [I1 _], I2 as [I2 _].
      apply Nat.eqb_eq in I1. apply Nat.ltb_lt in I2. lia.
    - intros g. rewrite in_app_iff.
      unfold r. rewrite in_single_keys, in_multiple_keys.
      unfold matched.
      destruct (exactCount g steamApps) as [|[|n]]; destruct (ordinary g);
        simpl; intuition congruence. }
  rewrite Hs, Hm. split; [reflexivity|].
  intros H. unfold ambiguous_note.
  destruct (Nat.ltb_spec 1 (List.length
              (nodup string_dec
                 (filter (fun g => (1 <? exactCount g steamApps) &&
                                   ordinary g) gameNames))));
    [lia | reflexivity].
Qed.

Lemma fullMatch_log_counts_witness :
  fullMatch_log
    (findSteamAppIdsFullMatch
       ["Dune"; "Halo"; "__proto__"; "Dune"]%string
       [ {| appid := 7; name := "Dune" |};
         {| appid := 3; name := "Halo" |};
         {| appid := 9; name := "__proto__" |};
         {| appid := 5; name := "Dune" |} ]) =
  ("Found full matches for 2 games." ++ String "010"%char EmptyString)%string.
Proof.
  destruct (fullMatch_log_counts
              ["Dune"; "Halo"; "__proto__"; "Dune"]%string
              [ {| appid := 7; name := "Dune" |};
                {| appid := 3; name := "Halo" |};
                {| appid := 9; name := "__proto__" |};
                {| appid := 5; name := "Dune" |} ]) as [L N].
  rewrite L, N; [reflexivity|]. vm_compute. lia.
Defined.
